(** * Minesweeper-AI: a shallow embedding of [minesweeper.py]

    The development follows the three classes of the program:
    [Minesweeper] (the board that answers probes), [Sentence] (one
    statement "exactly [count] of these cells are mines") and
    [MinesweeperAI] (the knowledge engine).

    Python integers are [Z].  A cell is a pair [(row, column)].  A Python
    [set] of cells is a [gset cell]; because [Sentence.known_mines] and
    [Sentence.known_safes] hand out the sentence's own set object, set
    objects that belong to sentences live in an explicit store and a
    sentence holds a reference into it.  Iteration over a set visits its
    cells in the order of [elements]; the engine state does not depend on
    that order ([closure_pass_any_order]). *)

From Stdlib Require Import ZArith Lia.
From stdpp Require Import base tactics option list sets gmap fin_sets.

Local Open Scope Z_scope.

#[local] Set Warnings "-clear-no-such-hyp".

(** ** Cells, ranges and the store of set objects *)

Abbreviation cell := (Z * Z)%type.
Abbreviation cellset :=
  (@gset (Z * Z) (@prod_eq_dec Z Z.eq_dec Z Z.eq_dec)
         (@prod_countable Z Z.eq_dec Z_countable Z Z.eq_dec Z_countable)).

(** [range(lo, hi)]: empty when [hi <= lo]. *)
Definition range (lo hi : Z) : list Z := seqZ lo (hi - lo).

Module Store.

(** A reference to a set object; objects are never freed. *)
Abbreviation loc := nat.

Abbreviation t := (list cellset).

Definition deref (h : t) (l : loc) : cellset := default ∅ (h !! l).

(** [set(...)]: a new object, distinct from every existing one. *)
Definition alloc (h : t) (s : cellset) : loc * t := (length h, h ++ [s]).

(** In-place mutation of the object behind [l]. *)
Definition update (h : t) (l : loc) (s : cellset) : t := <[l := s]> h.

End Store.

(** ** class Sentence *)

Module Sentence.

Record t := mk { cells : Store.loc; count : Z }.

(** [__init__]: [self.cells = set(cells)] copies its argument. *)
Definition init (h : Store.t) (cs : cellset) (n : Z) : t * Store.t :=
  let '(l, h') := Store.alloc h cs in (mk l n, h').

(** [__eq__]: equality by value. *)
Definition eq (h : Store.t) (self other : t) : bool :=
  bool_decide (Store.deref h (cells self) = Store.deref h (cells other))
  && (count self =? count other).

(** [known_mines]: returns [self.cells] itself, or a new empty set. *)
Definition known_mines (h : Store.t) (self : t) : Store.loc * Store.t :=
  let mineCount := count self in
  if (Z.of_nat (size (Store.deref h (cells self))) =? mineCount)
     && (mineCount >? 0)
  then (cells self, h)
  else Store.alloc h ∅.

(** [known_safes]: returns [self.cells] itself, or a new empty set. *)
Definition known_safes (h : Store.t) (self : t) : Store.loc * Store.t :=
  let mineCount := count self in
  if mineCount =? 0
  then (cells self, h)
  else Store.alloc h ∅.

(** [mark_mine]: the loop over [self.cells] stops at the first item equal
    to [cell]. *)
Fixpoint mark_mine_loop (items : list cell) (h : Store.t) (self : t)
    (c : cell) : t * Store.t :=
  match items with
  | [] => (self, h)
  | item :: rest =>
      if decide (item = c) then
        let h' := Store.update h (cells self)
                    (Store.deref h (cells self) ∖ {[c]}) in
        if count self >? 0
        then (mk (cells self) (count self - 1), h')
        else (mk (cells self) 0, h')
      else mark_mine_loop rest h self c
  end.

Definition mark_mine (h : Store.t) (self : t) (c : cell) : t * Store.t :=
  mark_mine_loop (elements (Store.deref h (cells self))) h self c.

Fixpoint mark_safe_loop (items : list cell) (h : Store.t) (self : t)
    (c : cell) : t * Store.t :=
  match items with
  | [] => (self, h)
  | item :: rest =>
      if decide (item = c) then
        (self, Store.update h (cells self)
                 (Store.deref h (cells self) ∖ {[c]}))
      else mark_safe_loop rest h self c
  end.

Definition mark_safe (h : Store.t) (self : t) (c : cell) : t * Store.t :=
  mark_safe_loop (elements (Store.deref h (cells self))) h self c.

(** What a sentence says, read through the store. *)
Definition view (h : Store.t) (self : t) : cellset * Z :=
  (Store.deref h (cells self), count self).

End Sentence.

(** ** class Minesweeper (the board; only what observations depend on) *)

Module Minesweeper.

(** [board[i][j]] is [True] exactly for the cells of [mines]
    ([__init__] sets both together), so the board is read off the set. *)
Record t := mk { height : Z; width : Z; mines : cellset }.

Definition board (self : t) (i j : Z) : bool :=
  bool_decide ((i, j) ∈ mines self).

Definition in_bounds (self : t) (i j : Z) : bool :=
  (0 <=? i) && (i <? height self) && (0 <=? j) && (j <? width self).

(** [nearby_mines]: the 3x3 block around [cell], the cell itself left
    out, out-of-bounds positions ignored. *)
Definition nearby_mines (self : t) (c : cell) : Z :=
  foldl (fun count i =>
    foldl (fun count j =>
      if decide ((i, j) = c) then count
      else if in_bounds self i j
           then (if board self i j then count + 1 else count)
           else count)
      count (range (c.2 - 1) (c.2 + 2)))
    0 (range (c.1 - 1) (c.1 + 2)).

End Minesweeper.

(** ** class MinesweeperAI *)

Module MinesweeperAI.

Record t := mk {
  height : Z;
  width : Z;
  moves_made : cellset;
  mines : cellset;
  safes : cellset;
  knowledge : list Sentence.t;
  heap : Store.t
}.

Definition init (height width : Z) : t := mk height width ∅ ∅ ∅ [] [].

Definition with_heap (self : t) (h : Store.t) : t :=
  mk (height self) (width self) (moves_made self) (mines self)
     (safes self) (knowledge self) h.

(** [for sentence in self.knowledge: body(sentence)], for a body that
    mutates the sentence it is given. *)
Fixpoint for_each (body : Store.t → Sentence.t → Sentence.t * Store.t)
    (ks : list Sentence.t) (h : Store.t) : list Sentence.t * Store.t :=
  match ks with
  | [] => ([], h)
  | sentence :: rest =>
      let '(sentence', h1) := body h sentence in
      let '(rest', h2) := for_each body rest h1 in
      (sentence' :: rest', h2)
  end.

Definition mark_mine (self : t) (c : cell) : t :=
  let '(ks, h) :=
    for_each (fun h sentence => Sentence.mark_mine h sentence c)
             (knowledge self) (heap self) in
  mk (height self) (width self) (moves_made self)
     ({[c]} ∪ mines self) (safes self) ks h.

Definition mark_safe (self : t) (c : cell) : t :=
  let '(ks, h) :=
    for_each (fun h sentence => Sentence.mark_safe h sentence c)
             (knowledge self) (heap self) in
  mk (height self) (width self) (moves_made self)
     (mines self) ({[c]} ∪ safes self) ks h.

(** *** add_knowledge, steps 1 to 3 *)

(** The [if / elif / elif] chain that decides whether [(y, x)] is
    added to [neighbours]. *)
Definition adjacent (row column y x : Z) : bool :=
  if (Z.abs (row - y) =? 1) && (Z.abs (column - x) =? 1) then true
  else if (Z.abs (row - y) =? 0) && (Z.abs (column - x) =? 1) then true
  else if (Z.abs (row - y) =? 1) && (Z.abs (column - x) =? 0) then true
  else false.

(** The two loops over the whole board that fill [neighbours]. *)
Definition collect_neighbours (self : t) (c : cell) : cellset :=
  let row := c.1 in
  let column := c.2 in
  foldl (fun neighbours x =>
    foldl (fun neighbours y =>
      if decide ((y, x) ∉ safes self) then
        if adjacent row column y x then {[ (y, x) ]} ∪ neighbours
        else neighbours
      else neighbours)
      neighbours (range 0 (height self)))
    ∅ (range 0 (width self)).

(** [self.moves_made.add(cell); self.mark_safe(cell)] *)
Definition record_move (self : t) (c : cell) : t :=
  let self1 := mk (height self) (width self) ({[c]} ∪ moves_made self)
                  (mines self) (safes self) (knowledge self) (heap self) in
  mark_safe self1 c.

(** [newSentence = Sentence(neighbours, count);
     self.knowledge.append(newSentence)] *)
Definition append_sentence (self : t) (cs : cellset) (n : Z) : t :=
  let '(newSentence, h) := Sentence.init (heap self) cs n in
  mk (height self) (width self) (moves_made self) (mines self)
     (safes self) (knowledge self ++ [newSentence]) h.

Definition observe_cell (self : t) (c : cell) (n : Z) : t :=
  let self1 := record_move self c in
  append_sentence self1 (collect_neighbours self1 c) n.

(** *** add_knowledge, step 4: one pass over the knowledge base *)

(** [for cell in tempSentenceCells: if cell in mines: self.mark_mine(cell)];
    [mines] is a reference, read in the store as it is at each test. *)
Definition mark_mines_in (self : t) (temp : list cell) (mines : Store.loc)
    : t :=
  foldl (fun self c =>
           if decide (c ∈ Store.deref (heap self) mines)
           then mark_mine self c else self)
        self temp.

Definition mark_safes_in (self : t) (temp : list cell) (safes : Store.loc)
    : t :=
  foldl (fun self c =>
           if decide (c ∈ Store.deref (heap self) safes)
           then mark_safe self c else self)
        self temp.

(** The body of [for sentence in self.knowledge], for the sentence at
    position [i].  [order] is the order in which Python iterates over a
    set; [tempSentenceCells], a deep copy, is the list of cells it visits.
    The sentence is a mutable object: its fields are read again from the
    state after the mines have been marked. *)
Definition conclude_in (order : cellset → list cell) (self : t) (i : nat)
    : t :=
  match knowledge self !! i with
  | None => self
  | Some sentence =>
      let '(mines, h1) := Sentence.known_mines (heap self) sentence in
      let self1 := with_heap self h1 in
      let tempSentenceCells :=
        order (Store.deref h1 (Sentence.cells sentence)) in
      let self2 := mark_mines_in self1 tempSentenceCells mines in
      match knowledge self2 !! i with
      | None => self2
      | Some sentence =>
          let '(safes, h3) := Sentence.known_safes (heap self2) sentence in
          let self3 := with_heap self2 h3 in
          mark_safes_in self3 tempSentenceCells safes
      end
  end.

Definition closure_pass_in (order : cellset → list cell) (self : t) : t :=
  foldl (conclude_in order) self (seq 0 (length (knowledge self))).

(** The engine with sets iterated in the order of [elements]. *)
Definition conclude (self : t) (i : nat) : t := conclude_in elements self i.

Definition closure_pass (self : t) : t := closure_pass_in elements self.

(** *** add_knowledge, step 5: new sentences from pairs *)

(** The body of the inner loop; [acc] is [tempKnowledge] with the store. *)
Definition infer_pair (first second : Sentence.t)
    (acc : list Sentence.t * Store.t) : list Sentence.t * Store.t :=
  let '(tempKnowledge, h) := acc in
  let fc := Store.deref h (Sentence.cells first) in
  let sc := Store.deref h (Sentence.cells second) in
  if decide (fc ⊆ sc) then
    if decide (fc = sc) then acc
    else if (Sentence.count first =? 0) || (Sentence.count second =? 0)
    then acc
    else if (Z.of_nat (size fc) =? 0) || (Z.of_nat (size sc) =? 0)
    then acc
    else
      let '(newSentence, h') :=
        Sentence.init h (sc ∖ fc)
                      (Sentence.count second - Sentence.count first) in
      (tempKnowledge ++ [newSentence], h')
  else acc.

Definition infer_all (ks : list Sentence.t) (h : Store.t)
    : list Sentence.t * Store.t :=
  foldl (fun acc first =>
           foldl (fun acc second => infer_pair first second acc) acc ks)
        ([], h) ks.

Definition derive (self : t) : t :=
  let '(tempKnowledge, h) := infer_all (knowledge self) (heap self) in
  mk (height self) (width self) (moves_made self) (mines self)
     (safes self) (knowledge self ++ tempKnowledge) h.

Definition add_knowledge (self : t) (c : cell) (n : Z) : t :=
  derive (closure_pass (observe_cell self c n)).

(** *** make_random_move *)

Fixpoint scan_row (self : t) (x : Z) (ys : list Z) : option cell :=
  match ys with
  | [] => None
  | y :: rest =>
      if decide (((x, y) ∉ moves_made self) ∧ ((x, y) ∉ mines self))
      then Some (x, y)
      else scan_row self x rest
  end.

Fixpoint scan_rows (self : t) (xs : list Z) : option cell :=
  match xs with
  | [] => None
  | x :: rest =>
      match scan_row self x (range 0 (width self)) with
      | Some c => Some c
      | None => scan_rows self rest
      end
  end.

(** Returns the chosen cell (or [None]) together with the engine as the
    call leaves it. *)
Definition make_random_move (self : t) : option cell * t :=
  (scan_rows self (range 0 (height self)), self).

(** *** make_safe_move *)

(** [for cell in self.safes: if cell not in self.moves_made: return cell] *)
Fixpoint scan_safes (self : t) (cells : list cell) : option cell :=
  match cells with
  | [] => None
  | c :: rest =>
      if decide (c ∉ moves_made self) then Some c
      else scan_safes self rest
  end.

(** [order] is the order in which Python iterates over [self.safes]; the
    engine is returned as the call leaves it. *)
Definition make_safe_move_in (order : cellset → list cell) (self : t)
    : option cell * t :=
  (scan_safes self (order (safes self)), self).

Definition make_safe_move (self : t) : option cell * t :=
  make_safe_move_in elements self.

(** The sentences of the knowledge base, read through the store. *)
Definition views (self : t) : list (cellset * Z) :=
  map (Sentence.view (heap self)) (knowledge self).

(** The set objects the knowledge base refers to. *)
Definition locs (self : t) : list Store.loc :=
  map Sentence.cells (knowledge self).

End MinesweeperAI.

Definition run (self : MinesweeperAI.t) (obs : list (cell * Z))
    : MinesweeperAI.t :=
  foldl (fun self o => MinesweeperAI.add_knowledge self o.1 o.2) self obs.

(** ** Narrowing, as a pure function on what a sentence says *)

Definition narrow_mine (c : cell) (v : cellset * Z) : cellset * Z :=
  if decide (c ∈ v.1)
  then (v.1 ∖ {[c]}, if v.2 >? 0 then v.2 - 1 else 0)
  else v.

Definition narrow_safe (c : cell) (v : cellset * Z) : cellset * Z :=
  if decide (c ∈ v.1) then (v.1 ∖ {[c]}, v.2) else v.

(** [count <= |cells|] *)
Definition fits (v : cellset * Z) : Prop := v.2 <= Z.of_nat (size v.1).

Inductive narrowing := AsMine (c : cell) | AsSafe (c : cell).

Definition narrow (h : Store.t) (self : Sentence.t) (op : narrowing)
    : Sentence.t * Store.t :=
  match op with
  | AsMine c => Sentence.mark_mine h self c
  | AsSafe c => Sentence.mark_safe h self c
  end.

Fixpoint narrow_all (h : Store.t) (self : Sentence.t) (ops : list narrowing)
    : Sentence.t * Store.t :=
  match ops with
  | [] => (self, h)
  | op :: rest =>
      let '(self', h') := narrow h self op in narrow_all h' self' rest
  end.

(** A [mark_safe] call is harmless for [count <= |cells|] when its cell is
    not in the sentence or the sentence has a cell to spare. *)
Definition spare (h : Store.t) (self : Sentence.t) (op : narrowing) : Prop :=
  match op with
  | AsMine _ => True
  | AsSafe c =>
      c ∉ Store.deref h (Sentence.cells self)
      ∨ Sentence.count self
        < Z.of_nat (size (Store.deref h (Sentence.cells self)))
  end.

Fixpoint spare_all (h : Store.t) (self : Sentence.t) (ops : list narrowing)
    : Prop :=
  match ops with
  | [] => True
  | op :: rest =>
      spare h self op
      ∧ let '(self', h') := narrow h self op in spare_all h' self' rest
  end.

(** ** The engine's sentences never share a set object *)

Definition wf (self : MinesweeperAI.t) : Prop :=
  NoDup (MinesweeperAI.locs self)
  ∧ ∀ l, l ∈ MinesweeperAI.locs self →
         (l < length (MinesweeperAI.heap self))%nat.

(** The states the engine can be in: a new engine, then any calls of
    [add_knowledge]. *)
Inductive reachable : MinesweeperAI.t → Prop :=
  | reachable_init height width :
      reachable (MinesweeperAI.init height width)
  | reachable_add self c n :
      reachable self → reachable (MinesweeperAI.add_knowledge self c n).

(** What a loop body must do to act on each sentence separately. *)
Definition local_body (body : Store.t → Sentence.t → Sentence.t * Store.t)
    (g : cellset * Z → cellset * Z) : Prop :=
  ∀ h s,
    Sentence.cells (body h s).1 = Sentence.cells s
    ∧ length (body h s).2 = length h
    ∧ (∀ l, l ≠ Sentence.cells s →
            Store.deref (body h s).2 l = Store.deref h l)
    ∧ (∀ l, Store.deref (body h s).2 l ⊆ Store.deref h l)
    ∧ Sentence.view (body h s).2 (body h s).1 = g (Sentence.view h s).

(** A loop body that only ever removes [c] from the sets of the store. *)
Definition removes (c : cell)
    (body : Store.t → Sentence.t → Sentence.t * Store.t) : Prop :=
  ∀ h s l, Store.deref (body h s).2 l ∖ {[c]} = Store.deref h l ∖ {[c]}.

(** Two engine states that differ at most in what is known. *)
Definition same_board (self self' : MinesweeperAI.t) : Prop :=
  MinesweeperAI.height self' = MinesweeperAI.height self
  ∧ MinesweeperAI.width self' = MinesweeperAI.width self
  ∧ MinesweeperAI.moves_made self' = MinesweeperAI.moves_made self.

(** The store after a step holds the same objects, each a subset of what
    it was, and those outside the knowledge base untouched. *)
Definition narrowed (self self' : MinesweeperAI.t) : Prop :=
  MinesweeperAI.locs self' = MinesweeperAI.locs self
  ∧ length (MinesweeperAI.heap self') = length (MinesweeperAI.heap self)
  ∧ (∀ l, l ∉ MinesweeperAI.locs self →
          Store.deref (MinesweeperAI.heap self') l
          = Store.deref (MinesweeperAI.heap self) l)
  ∧ ∀ l, Store.deref (MinesweeperAI.heap self') l
         ⊆ Store.deref (MinesweeperAI.heap self) l.

(** The loops of step 4 keep the board, the sentences' set objects
    apart, and the number of sentences. *)
Definition kept (self self' : MinesweeperAI.t) : Prop :=
  same_board self self'
  ∧ length (MinesweeperAI.knowledge self')
    = length (MinesweeperAI.knowledge self)
  ∧ (wf self → wf self').

(** ** Truth of the knowledge base in a mine layout *)

(** A sentence holds in the layout [L] when its count is the number of its
    cells that are mines. *)
Definition holds (L : cellset) (v : cellset * Z) : Prop :=
  v.2 = Z.of_nat (size (v.1 ∩ L)).

Definition sound (L : cellset) (self : MinesweeperAI.t) : Prop :=
  MinesweeperAI.mines self ⊆ L ∧ MinesweeperAI.safes self ## L.

Definition inv (L : cellset) (self : MinesweeperAI.t) : Prop :=
  wf self ∧ sound L self ∧ Forall (holds L) (MinesweeperAI.views self).


(** ** Step 5 on what the sentences say *)

(** What the body of the inner loop appends for the pair (first, second). *)
Definition infer_view (a b : cellset * Z) : list (cellset * Z) :=
  if decide (a.1 ⊆ b.1) then
    if decide (a.1 = b.1) then []
    else if (a.2 =? 0) || (b.2 =? 0) then []
    else if (Z.of_nat (size a.1) =? 0) || (Z.of_nat (size b.1) =? 0) then []
    else [(b.1 ∖ a.1, b.2 - a.2)]
  else [].

Definition infer_views (vs : list (cellset * Z)) : list (cellset * Z) :=
  flat_map (fun a => flat_map (fun b => infer_view a b) vs) vs.

(** The sentences that hold the sets [map fst D] allocated in a row from
    the end of [h], with the counts [map snd D]. *)
Definition allocated (h : Store.t) (D : list (cellset * Z))
    : list Sentence.t :=
  zip_with Sentence.mk (seq (length h) (length D)) (map snd D).

(** The subset-subtraction rule in the words of the specification: the
    pairs (A, B) it applies to, and what it derives from the sentences
    [vs], pair by pair in order. *)
Definition qualifies (A B : cellset * Z) : Prop :=
  A.1 ⊆ B.1 ∧ A.1 ≠ B.1 ∧ A.1 ≠ ∅ ∧ B.1 ≠ ∅ ∧ A.2 > 0 ∧ B.2 > 0.

#[global] Instance qualifies_dec A B : Decision (qualifies A B).
Proof. unfold qualifies. apply _. Defined.

Definition subset_subtraction (vs : list (cellset * Z))
    : list (cellset * Z) :=
  flat_map (fun A =>
    flat_map (fun B =>
      if decide (qualifies A B) then [(B.1 ∖ A.1, B.2 - A.2)] else [])
      vs)
    vs.

(** ** Observations *)

(** The cells that [nearby_mines] counts: in the 3x3 block, not the cell
    itself, on the board, and mined. *)
Definition counted (game : Minesweeper.t) (c : cell) (i j : Z) : Prop :=
  ((i, j) ≠ c)
  ∧ Minesweeper.in_bounds game i j = true
  ∧ Minesweeper.board game i j = true.

Definition mined_neighbours (game : Minesweeper.t) (c : cell) : list cell :=
  range (c.1 - 1) (c.1 + 2) ≫= fun i =>
    pair i <$> filter (counted game c i) (range (c.2 - 1) (c.2 + 2)).

(** Chebyshev distance. *)
Definition chebyshev (a b : cell) : Z :=
  Z.max (Z.abs (a.1 - b.1)) (Z.abs (a.2 - b.2)).

Definition on_board (height width : Z) (c : cell) : Prop :=
  0 <= c.1 < height ∧ 0 <= c.2 < width.

(** A sequence of probes answered by the board [game]: no probed cell is a
    mine, none is probed twice, and every count is the board's. *)
Definition consistent (game : Minesweeper.t) (obs : list (cell * Z)) : Prop :=
  NoDup (map fst obs)
  ∧ Forall (fun o => (o.1 ∉ Minesweeper.mines game)
                     ∧ o.2 = Minesweeper.nearby_mines game o.1) obs.

(** A new engine for the board of [game]. *)
Definition engine_for (game : Minesweeper.t) : MinesweeperAI.t :=
  MinesweeperAI.init (Minesweeper.height game) (Minesweeper.width game).

(** The engine plays on the board of [game]. *)
Definition fitted (game : Minesweeper.t) (self : MinesweeperAI.t) : Prop :=
  MinesweeperAI.height self = Minesweeper.height game
  ∧ MinesweeperAI.width self = Minesweeper.width game.

(** ** make_random_move, in the words of its contract *)

(** The board in row-major order: rows 0 .. height-1, and within a row the
    columns 0 .. width-1. *)
Definition row_major (height width : Z) : list cell :=
  range 0 height ≫= fun x => pair x <$> range 0 width.

Definition first_free (height width : Z) (moves_made mines : cellset)
    : option cell :=
  head (filter (fun c => c ∉ moves_made ∪ mines) (row_major height width)).

(** ** Examples *)

(** The sentence ({(0,0),(0,1),(1,1)}, 2) in a store of its own, and a
    sequence of narrowing calls on it. *)
Definition corner_sentence : Sentence.t * Store.t :=
  Sentence.init [] {[ (0, 0); (0, 1); (1, 1) ]} 2.

(** The same sentence once (0,0) is known to be safe: ({(0,1),(1,1)}, 2). *)
Definition corner_narrowed : Sentence.t * Store.t :=
  Sentence.mark_safe corner_sentence.2 corner_sentence.1 (0, 0).

Definition corner_narrowings : list narrowing :=
  [AsMine (0, 1); AsSafe (5, 5); AsSafe (0, 0); AsMine (0, 0);
   AsMine (1, 1)].


(** A 3x3 board with mines at (1,1) and (1,2), probed along its top row. *)
Definition top_row_game : Minesweeper.t :=
  Minesweeper.mk 3 3 {[ (1, 1); (1, 2) ]}.

Definition top_row_probes : list (cell * Z) :=
  [((0, 0), 1); ((0, 1), 2); ((0, 2), 2)].

(** A 4x3 board with mines at (1,0) and (1,2): two probes on the top row,
    then one in the far corner. *)
Definition far_corner_game : Minesweeper.t :=
  Minesweeper.mk 4 3 {[ (1, 0); (1, 2) ]}.

Definition far_corner_start : MinesweeperAI.t :=
  run (engine_for far_corner_game) [((0, 0), 1); ((0, 1), 2)].

(** ** Narrowing calls that tell the truth about a layout *)

Definition truthful (L : cellset) (op : narrowing) : Prop :=
  match op with
  | AsMine c => c ∈ L
  | AsSafe c => c ∉ L
  end.

(** The sentence ({(1,1)}, 0) in a store of its own. *)
Definition lone_cell_sentence : Sentence.t * Store.t :=
  Sentence.init [] {[ (1, 1) ]} 0.

(** ** What the marking loops of step 4 can do to an engine *)

(** From [self] to [self']: [mines] and [safes] have only grown, every
    sentence is still there at its position with the same set object (and
    a zero count is still zero), every set object has only lost cells,
    and the cells it lost are in [mines] or [safes]. *)
Definition progress (self self' : MinesweeperAI.t) : Prop :=
  MinesweeperAI.mines self ⊆ MinesweeperAI.mines self'
  ∧ MinesweeperAI.safes self ⊆ MinesweeperAI.safes self'
  ∧ (∀ i s, MinesweeperAI.knowledge self !! i = Some s →
            ∃ s', MinesweeperAI.knowledge self' !! i = Some s'
                  ∧ Sentence.cells s' = Sentence.cells s
                  ∧ (Sentence.count s = 0 → Sentence.count s' = 0))
  ∧ (length (MinesweeperAI.heap self)
     ≤ length (MinesweeperAI.heap self'))%nat
  ∧ ∀ l, (l < length (MinesweeperAI.heap self))%nat →
         Store.deref (MinesweeperAI.heap self') l
         ⊆ Store.deref (MinesweeperAI.heap self) l
         ∧ Store.deref (MinesweeperAI.heap self) l
           ⊆ Store.deref (MinesweeperAI.heap self') l
             ∪ MinesweeperAI.mines self' ∪ MinesweeperAI.safes self'.

(** No sentence mentions a cell that is known to be safe. *)
Definition clean (self : MinesweeperAI.t) : Prop :=
  wf self
  ∧ Forall (fun v => v.1 ## MinesweeperAI.safes self)
           (MinesweeperAI.views self).

(** A 1x4 board with its one mine at (0,0), probed at (0,1) and (0,3). *)
Definition strip_game : Minesweeper.t := Minesweeper.mk 1 4 {[ (0, 0) ]}.

Definition strip_probes : list (cell * Z) := [((0, 1), 1); ((0, 3), 0)].
(** * Proofs *)

Section store.
Implicit Types (h : Store.t) (l : Store.loc) (s : cellset).

Lemma deref_update_eq h l s :
  (l < length h)%nat → Store.deref (Store.update h l s) l = s.
Proof.
  intros Hl. unfold Store.deref, Store.update.
  by rewrite list_lookup_insert_eq.
Qed.

Lemma deref_update_ne h l l' s :
  l ≠ l' → Store.deref (Store.update h l s) l' = Store.deref h l'.
Proof.
  intros Hl. unfold Store.deref, Store.update.
  by rewrite list_lookup_insert_ne.
Qed.

Lemma deref_dangling h l : (length h ≤ l)%nat → Store.deref h l = ∅.
Proof.
  intros Hl. unfold Store.deref. by rewrite lookup_ge_None_2.
Qed.

Lemma deref_app_old h h' l :
  (l < length h)%nat → Store.deref (h ++ h') l = Store.deref h l.
Proof.
  intros Hl. unfold Store.deref. by rewrite lookup_app_l.
Qed.

Lemma deref_app_new h s : Store.deref (h ++ [s]) (length h) = s.
Proof.
  unfold Store.deref. rewrite lookup_app_r; [|lia].
  by rewrite Nat.sub_diag.
Qed.

Lemma deref_update_subseteq h l l' s :
  s ⊆ Store.deref h l →
  Store.deref (Store.update h l s) l' ⊆ Store.deref h l'.
Proof.
  intros Hs. destruct (decide (l = l')) as [<-|Hne].
  - destruct (decide (l < length h)%nat).
    + by rewrite deref_update_eq.
    + unfold Store.update. rewrite list_insert_ge by lia. done.
  - by rewrite deref_update_ne.
Qed.

Lemma length_update h l s : length (Store.update h l s) = length h.
Proof. apply length_insert. Qed.

End store.

Section sentence.
Implicit Types (h : Store.t) (self : Sentence.t) (c : cell).

Lemma mark_mine_loop_unfold items h self c :
  Sentence.mark_mine_loop items h self c =
    if decide (c ∈ items)
    then (Sentence.mk (Sentence.cells self)
            (if Sentence.count self >? 0 then Sentence.count self - 1 else 0),
          Store.update h (Sentence.cells self)
            (Store.deref h (Sentence.cells self) ∖ {[c]}))
    else (self, h).
Proof.
  induction items as [|item rest IH].
  - cbn [Sentence.mark_mine_loop]. case_decide; [|done].
    by apply elem_of_nil in H.
  - cbn [Sentence.mark_mine_loop]. destruct (decide (item = c)) as [->|Hne].
    + rewrite (decide_True (P := c ∈ c :: rest)) by apply list_elem_of_here.
      by destruct (Sentence.count self >? 0).
    + rewrite IH. destruct (decide (c ∈ rest)) as [Hin|Hnin].
      * rewrite (decide_True (P := c ∈ item :: rest)); [done|].
        by apply list_elem_of_further.
      * rewrite (decide_False (P := c ∈ item :: rest)); [done|].
        intros [?|?]%elem_of_cons; congruence.
Qed.

Lemma mark_safe_loop_unfold items h self c :
  Sentence.mark_safe_loop items h self c =
    if decide (c ∈ items)
    then (self, Store.update h (Sentence.cells self)
                  (Store.deref h (Sentence.cells self) ∖ {[c]}))
    else (self, h).
Proof.
  induction items as [|item rest IH].
  - cbn [Sentence.mark_safe_loop]. case_decide; [|done].
    by apply elem_of_nil in H.
  - cbn [Sentence.mark_safe_loop]. destruct (decide (item = c)) as [->|Hne].
    + by rewrite (decide_True (P := c ∈ c :: rest))
        by apply list_elem_of_here.
    + rewrite IH. destruct (decide (c ∈ rest)) as [Hin|Hnin].
      * rewrite (decide_True (P := c ∈ item :: rest)); [done|].
        by apply list_elem_of_further.
      * rewrite (decide_False (P := c ∈ item :: rest)); [done|].
        intros [?|?]%elem_of_cons; congruence.
Qed.

(** The loop of [mark_mine] is a membership test followed by one removal. *)
Lemma mark_mine_unfold h self c :
  Sentence.mark_mine h self c =
    if decide (c ∈ Store.deref h (Sentence.cells self))
    then (Sentence.mk (Sentence.cells self)
            (if Sentence.count self >? 0 then Sentence.count self - 1 else 0),
          Store.update h (Sentence.cells self)
            (Store.deref h (Sentence.cells self) ∖ {[c]}))
    else (self, h).
Proof.
  unfold Sentence.mark_mine. rewrite mark_mine_loop_unfold.
  destruct (decide (c ∈ Store.deref h (Sentence.cells self))) as [Hin|Hnin].
  - rewrite decide_True; [done|]. by apply elem_of_elements.
  - rewrite decide_False; [done|]. by rewrite elem_of_elements.
Qed.

Lemma mark_safe_unfold h self c :
  Sentence.mark_safe h self c =
    if decide (c ∈ Store.deref h (Sentence.cells self))
    then (self, Store.update h (Sentence.cells self)
                  (Store.deref h (Sentence.cells self) ∖ {[c]}))
    else (self, h).
Proof.
  unfold Sentence.mark_safe. rewrite mark_safe_loop_unfold.
  destruct (decide (c ∈ Store.deref h (Sentence.cells self))) as [Hin|Hnin].
  - rewrite decide_True; [done|]. by apply elem_of_elements.
  - rewrite decide_False; [done|]. by rewrite elem_of_elements.
Qed.

Lemma in_store h l c : c ∈ Store.deref h l → (l < length h)%nat.
Proof.
  unfold Store.deref. intros Hc.
  destruct (h !! l) eqn:E; [by eapply lookup_lt_Some|]. set_solver.
Qed.

Lemma mark_mine_view h self c :
  Sentence.view (Sentence.mark_mine h self c).2 (Sentence.mark_mine h self c).1
  = narrow_mine c (Sentence.view h self).
Proof.
  rewrite mark_mine_unfold. unfold narrow_mine, Sentence.view. simpl.
  destruct (decide (c ∈ _)) as [Hin|Hnin]; simpl; [|done].
  rewrite deref_update_eq by (by eapply in_store). done.
Qed.

Lemma mark_safe_view h self c :
  Sentence.view (Sentence.mark_safe h self c).2 (Sentence.mark_safe h self c).1
  = narrow_safe c (Sentence.view h self).
Proof.
  rewrite mark_safe_unfold. unfold narrow_safe, Sentence.view. simpl.
  destruct (decide (c ∈ _)) as [Hin|Hnin]; simpl; [|done].
  rewrite deref_update_eq by (by eapply in_store). done.
Qed.

Lemma narrow_mine_fits c v : fits v → fits (narrow_mine c v).
Proof.
  unfold fits, narrow_mine. destruct v as [X n]; simpl.
  destruct (decide (c ∈ X)) as [Hin|]; simpl; [|done].
  intros Hfit. rewrite size_difference by set_solver.
  rewrite size_singleton.
  assert (size X ≠ 0%nat) by (intros ?%size_empty_inv; set_solver).
  destruct (n >? 0) eqn:E; lia.
Qed.

Lemma narrow_safe_fits c v :
  c ∉ v.1 ∨ v.2 < Z.of_nat (size v.1) → fits v → fits (narrow_safe c v).
Proof.
  unfold fits, narrow_safe. destruct v as [X n]; simpl.
  destruct (decide (c ∈ X)) as [Hin|]; simpl; [|done].
  intros [?|Hlt] Hfit; [done|]. rewrite size_difference by set_solver.
  rewrite size_singleton. lia.
Qed.

End sentence.

Section marking.
Import MinesweeperAI.
Implicit Types (h : Store.t) (self : MinesweeperAI.t) (c : cell).

Lemma for_each_spec body g ks h :
  local_body body g →
  NoDup (map Sentence.cells ks) →
  map Sentence.cells (for_each body ks h).1 = map Sentence.cells ks
  ∧ length (for_each body ks h).2 = length h
  ∧ (∀ l, l ∉ map Sentence.cells ks →
          Store.deref (for_each body ks h).2 l = Store.deref h l)
  ∧ (∀ l, Store.deref (for_each body ks h).2 l ⊆ Store.deref h l)
  ∧ map (Sentence.view (for_each body ks h).2) (for_each body ks h).1
    = map g (map (Sentence.view h) ks).
Proof.
  intros Hbody. revert h.
  induction ks as [|s rest IH]; intros h Hnd; [done|].
  cbn [for_each]. apply NoDup_cons in Hnd as [Hs Hrest].
  destruct (Hbody h s) as (Hc & Hlen & Hframe & Hsub & Hview).
  destruct (body h s) as [s' h1]. cbn [fst snd] in *.
  destruct (IH h1 Hrest) as (IHc & IHlen & IHframe & IHsub & IHview).
  destruct (for_each body rest h1) as [rest' h2]. cbn [fst snd] in *.
  cbn [map]. repeat split.
  - by rewrite Hc, IHc.
  - by rewrite IHlen.
  - intros l Hl. apply not_elem_of_cons in Hl as [Hl1 Hl2].
    rewrite IHframe by done. by apply Hframe.
  - intros l. etrans; [apply IHsub|apply Hsub].
  - f_equal.
    + rewrite <- Hview. unfold Sentence.view. f_equal.
      apply IHframe. by rewrite Hc.
    + rewrite IHview. f_equal. apply map_ext_in. intros a Ha.
      unfold Sentence.view. f_equal. apply Hframe.
      intros Heq. apply Hs. rewrite <- Heq.
      apply list_elem_of_In. by apply in_map.
Qed.

Lemma for_each_length body ks h :
  length (for_each body ks h).1 = length ks.
Proof.
  revert h. induction ks as [|s rest IH]; intros h; [done|].
  cbn [for_each]. destruct (body h s) as [s' h1].
  specialize (IH h1). destruct (for_each body rest h1) as [rest' h2].
  cbn [fst length] in *. by rewrite IH.
Qed.

Lemma mark_mine_local c :
  local_body (fun h s => Sentence.mark_mine h s c) (narrow_mine c).
Proof.
  intros h s. split_and!.
  - rewrite mark_mine_unfold. by case_decide.
  - rewrite mark_mine_unfold. case_decide; [apply length_update|done].
  - intros l Hl. rewrite mark_mine_unfold.
    case_decide; [by apply deref_update_ne|done].
  - intros l. rewrite mark_mine_unfold.
    case_decide; [by apply deref_update_subseteq, subseteq_difference_l|done].
  - apply mark_mine_view.
Qed.

Lemma mark_safe_local c :
  local_body (fun h s => Sentence.mark_safe h s c) (narrow_safe c).
Proof.
  intros h s. split_and!.
  - rewrite mark_safe_unfold. by case_decide.
  - rewrite mark_safe_unfold. case_decide; [apply length_update|done].
  - intros l Hl. rewrite mark_safe_unfold.
    case_decide; [by apply deref_update_ne|done].
  - intros l. rewrite mark_safe_unfold.
    case_decide; [by apply deref_update_subseteq, subseteq_difference_l|done].
  - apply mark_safe_view.
Qed.

Lemma mark_mine_spec self c :
  NoDup (locs self) →
  same_board self (mark_mine self c)
  ∧ mines (mark_mine self c) = {[c]} ∪ mines self
  ∧ safes (mark_mine self c) = safes self
  ∧ narrowed self (mark_mine self c)
  ∧ views (mark_mine self c) = map (narrow_mine c) (views self).
Proof.
  intros Hnd. unfold mark_mine, views, locs, same_board, narrowed.
  destruct (for_each_spec _ _ (knowledge self) (heap self)
              (mark_mine_local c) Hnd) as (H1 & H2 & H3 & H4 & H5).
  destruct (for_each _ _ _) as [ks h]. cbn [fst snd] in *. simpl.
  done.
Qed.

Lemma mark_safe_spec self c :
  NoDup (locs self) →
  same_board self (mark_safe self c)
  ∧ mines (mark_safe self c) = mines self
  ∧ safes (mark_safe self c) = {[c]} ∪ safes self
  ∧ narrowed self (mark_safe self c)
  ∧ views (mark_safe self c) = map (narrow_safe c) (views self).
Proof.
  intros Hnd. unfold mark_safe, views, locs, same_board, narrowed.
  destruct (for_each_spec _ _ (knowledge self) (heap self)
              (mark_safe_local c) Hnd) as (H1 & H2 & H3 & H4 & H5).
  destruct (for_each _ _ _) as [ks h]. cbn [fst snd] in *. simpl.
  done.
Qed.

Lemma narrowed_wf self self' : narrowed self self' → wf self → wf self'.
Proof.
  intros (Hl & Hlen & _ & _) [Hnd Hin]. unfold wf. rewrite Hl, Hlen. done.
Qed.

Lemma with_heap_same self : with_heap self (heap self) = self.
Proof. by destruct self. Qed.

Lemma views_with_heap_app self h' :
  wf self → views (with_heap self (heap self ++ h')) = views self.
Proof.
  intros [_ Hin]. unfold views. cbn [with_heap knowledge heap].
  apply map_ext_in. intros s Hs. unfold Sentence.view. f_equal.
  apply deref_app_old, Hin. apply list_elem_of_In. by apply in_map.
Qed.

Lemma wf_with_heap_app self h' :
  wf self → wf (with_heap self (heap self ++ h')).
Proof.
  intros [Hnd Hin]. split; [done|]. intros l Hl.
  cbn [with_heap heap]. rewrite length_app. apply Hin in Hl. lia.
Qed.

End marking.
Section soundness.
Import MinesweeperAI.
Variable L : cellset.
Implicit Types (self : MinesweeperAI.t) (c : cell) (v : cellset * Z).

Lemma holds_narrow_mine c v :
  c ∈ L → holds L v → holds L (narrow_mine c v).
Proof.
  unfold holds, narrow_mine. destruct v as [X n]; simpl. intros HL ->.
  destruct (decide (c ∈ X)) as [Hin|]; simpl; [|done].
  assert (size (X ∩ L) ≠ 0%nat) by (intros ?%size_empty_inv; set_solver).
  replace ((X ∖ {[c]}) ∩ L) with ((X ∩ L) ∖ {[c]}) by set_solver.
  rewrite (size_difference (X ∩ L) {[c]}) by set_solver.
  rewrite size_singleton.
  destruct (Z.gtb_spec (Z.of_nat (size (X ∩ L))) 0); lia.
Qed.

Lemma holds_narrow_safe c v :
  c ∉ L → holds L v → holds L (narrow_safe c v).
Proof.
  unfold holds, narrow_safe. destruct v as [X n]; simpl. intros HL ->.
  destruct (decide (c ∈ X)) as [Hin|]; simpl; [|done].
  by replace ((X ∖ {[c]}) ∩ L) with (X ∩ L) by set_solver.
Qed.

Lemma holds_all_mines v :
  holds L v → v.2 = Z.of_nat (size v.1) → v.1 ⊆ L.
Proof.
  unfold holds. destruct v as [X n]; simpl. intros -> Heq.
  assert (X ∩ L = X) as Hs.
  { apply set_subseteq_size_eq; [set_solver|lia]. }
  set_solver.
Qed.

Lemma holds_no_mines v : holds L v → v.2 = 0 → v.1 ## L.
Proof.
  unfold holds. destruct v as [X n]; simpl. intros -> Heq.
  assert (X ∩ L ≡ ∅) by (apply size_empty_inv; lia). set_solver.
Qed.

Lemma holds_difference a b :
  holds L a → holds L b → a.1 ⊆ b.1 → holds L (b.1 ∖ a.1, b.2 - a.2).
Proof.
  unfold holds. destruct a as [A n], b as [B m]; simpl. intros -> -> Hsub.
  replace ((B ∖ A) ∩ L) with ((B ∩ L) ∖ (A ∩ L)) by set_solver.
  rewrite (size_difference (B ∩ L) (A ∩ L)) by set_solver.
  assert (size (A ∩ L) ≤ size (B ∩ L))%nat
    by (apply subseteq_size; set_solver).
  lia.
Qed.

Lemma inv_mark_mine self c :
  c ∈ L → inv L self → inv L (mark_mine self c).
Proof.
  intros Hc (Hwf & [Hm Hs] & Hh).
  destruct (mark_mine_spec self c (proj1 Hwf)) as (_ & Em & Es & Hn & Ev).
  unfold inv, sound. split_and!.
  - by eapply narrowed_wf.
  - rewrite Em. set_solver.
  - by rewrite Es.
  - rewrite Ev. apply Forall_map. eapply Forall_impl; [exact Hh|].
    intros v. by apply holds_narrow_mine.
Qed.

Lemma inv_mark_safe self c :
  c ∉ L → inv L self → inv L (mark_safe self c).
Proof.
  intros Hc (Hwf & [Hm Hs] & Hh).
  destruct (mark_safe_spec self c (proj1 Hwf)) as (_ & Em & Es & Hn & Ev).
  unfold inv, sound. split_and!.
  - by eapply narrowed_wf.
  - by rewrite Em.
  - rewrite Es. set_solver.
  - rewrite Ev. apply Forall_map. eapply Forall_impl; [exact Hh|].
    intros v. by apply holds_narrow_safe.
Qed.

Lemma inv_mark_mines_in temp m self :
  inv L self → Store.deref (heap self) m ⊆ L →
  inv L (mark_mines_in self temp m).
Proof.
  unfold mark_mines_in. revert self.
  induction temp as [|c rest IH]; intros self Hinv Hm; [done|].
  cbn [foldl]. apply IH.
  - case_decide; [|done]. apply inv_mark_mine; [|done]. by apply Hm.
  - case_decide; [|done].
    destruct (mark_mine_spec self c (proj1 (proj1 Hinv)))
      as (_ & _ & _ & (_ & _ & _ & Hsub) & _).
    etrans; [apply Hsub|done].
Qed.

Lemma inv_mark_safes_in temp m self :
  inv L self → Store.deref (heap self) m ## L →
  inv L (mark_safes_in self temp m).
Proof.
  unfold mark_safes_in. revert self.
  induction temp as [|c rest IH]; intros self Hinv Hm; [done|].
  cbn [foldl]. apply IH.
  - case_decide; [|done]. apply inv_mark_safe; [|done]. set_solver.
  - case_decide; [|done].
    destruct (mark_safe_spec self c (proj1 (proj1 Hinv)))
      as (_ & _ & _ & (_ & _ & _ & Hsub) & _).
    specialize (Hsub m). set_solver.
Qed.

Lemma inv_with_heap_app self h' :
  inv L self → inv L (with_heap self (heap self ++ h')).
Proof.
  intros (Hwf & Hs & Hh). unfold inv. split_and!.
  - by apply wf_with_heap_app.
  - done.
  - by rewrite views_with_heap_app.
Qed.

Lemma inv_lookup self i s :
  inv L self → knowledge self !! i = Some s →
  holds L (Sentence.view (heap self) s).
Proof.
  intros (_ & _ & Hh) Hi. rewrite Forall_forall in Hh. apply Hh.
  unfold views. apply list_elem_of_In, in_map, list_elem_of_In.
  by eapply list_elem_of_lookup_2.
Qed.

Lemma inv_conclude self i : inv L self → inv L (conclude self i).
Proof.
  intros Hinv. unfold conclude, conclude_in.
  destruct (knowledge self !! i) as [s|] eqn:Hi; [|done].
  pose proof (inv_lookup _ _ _ Hinv Hi) as Hs.
  assert (inv L (mark_mines_in
            (with_heap self (Sentence.known_mines (heap self) s).2)
            (elements (Store.deref (Sentence.known_mines (heap self) s).2
                         (Sentence.cells s)))
            (Sentence.known_mines (heap self) s).1)) as Hinv2.
  { unfold Sentence.known_mines.
    destruct (_ && _) eqn:Hc; cbn [fst snd Store.alloc].
    - rewrite with_heap_same. apply inv_mark_mines_in; [done|].
      apply andb_true_iff in Hc as [Heq%Z.eqb_eq _].
      by apply (holds_all_mines _ Hs).
    - apply inv_mark_mines_in; [by apply inv_with_heap_app|].
      cbn [with_heap heap]. rewrite deref_app_new. set_solver. }
  destruct (Sentence.known_mines (heap self) s) as [m h1].
  cbn [fst snd] in Hinv2.
  set (self2 := mark_mines_in _ _ _) in *.
  destruct (knowledge self2 !! i) as [s'|] eqn:Hi'; [|done].
  pose proof (inv_lookup _ _ _ Hinv2 Hi') as Hs'.
  unfold Sentence.known_safes.
  destruct (Z.eqb_spec (Sentence.count s') 0) as [Hc|Hc];
    cbn [Store.alloc].
  - rewrite with_heap_same. apply inv_mark_safes_in; [done|].
    by apply (holds_no_mines _ Hs').
  - apply inv_mark_safes_in; [by apply inv_with_heap_app|].
    cbn [with_heap heap]. rewrite deref_app_new. set_solver.
Qed.

Lemma inv_closure_pass self : inv L self → inv L (closure_pass self).
Proof.
  unfold closure_pass, closure_pass_in.
  generalize (seq 0 (length (knowledge self))).
  intros idx. revert self.
  induction idx as [|i rest IH]; intros self Hinv; [done|].
  cbn [foldl]. by apply IH, inv_conclude.
Qed.

End soundness.
Section derivation.
Import MinesweeperAI.
Implicit Types (h : Store.t) (self : MinesweeperAI.t)
  (D : list (cellset * Z)).

Lemma allocated_snoc h D d :
  allocated h (D ++ [d])
  = allocated h D ++ [Sentence.mk (length h + length D) d.2].
Proof.
  unfold allocated. rewrite length_app, seq_app, map_app. cbn [length map].
  rewrite zip_with_app by (by rewrite length_seq, length_map).
  done.
Qed.

Lemma allocated_views h D :
  map (Sentence.view (h ++ map fst D)) (allocated h D) = D.
Proof.
  revert h. induction D as [|d D IH]; intros h; [done|].
  unfold allocated. cbn [length seq map zip_with]. f_equal.
  - unfold Sentence.view, Store.deref. cbn [Sentence.cells Sentence.count].
    rewrite lookup_app_r by lia. rewrite Nat.sub_diag. by destruct d.
  - specialize (IH (h ++ [d.1])). unfold allocated in IH.
    rewrite length_app in IH. cbn [length] in IH.
    rewrite <- app_assoc in IH. cbn [app] in IH.
    by replace (length h + 1)%nat with (S (length h)) in IH by lia.
Qed.

Lemma allocated_cells h D :
  map Sentence.cells (allocated h D) = seq (length h) (length D).
Proof.
  unfold allocated. generalize (length h). induction D as [|d D IH]; intros n.
  - done.
  - cbn [length seq map zip_with Sentence.cells]. by rewrite IH.
Qed.

Lemma infer_pair_step h D first second :
  (Sentence.cells first < length h)%nat →
  (Sentence.cells second < length h)%nat →
  infer_pair first second (allocated h D, h ++ map fst D)
  = (allocated h (D ++ infer_view (Sentence.view h first)
                                  (Sentence.view h second)),
     h ++ map fst (D ++ infer_view (Sentence.view h first)
                                   (Sentence.view h second))).
Proof.
  intros H1 H2. unfold infer_pair, infer_view, Sentence.view.
  rewrite !deref_app_old by done. cbn [fst snd].
  repeat case_decide; try (by rewrite app_nil_r).
  destruct (_ || _); [by rewrite app_nil_r|].
  destruct (_ || _); [by rewrite app_nil_r|].
  unfold Sentence.init, Store.alloc.
  rewrite allocated_snoc, map_app, length_app, length_map.
  cbn [map fst snd]. by rewrite app_assoc.
Qed.

Lemma infer_inner h D first ks :
  (Sentence.cells first < length h)%nat →
  (∀ s, s ∈ ks → (Sentence.cells s < length h)%nat) →
  foldl (fun acc second => infer_pair first second acc)
        (allocated h D, h ++ map fst D) ks
  = (allocated h (D ++ flat_map (infer_view (Sentence.view h first))
                                (map (Sentence.view h) ks)),
     h ++ map fst (D ++ flat_map (infer_view (Sentence.view h first))
                                 (map (Sentence.view h) ks))).
Proof.
  intros H1. revert D. induction ks as [|s ks IH]; intros D Hks.
  - cbn. by rewrite app_nil_r.
  - cbn [foldl map flat_map]. rewrite infer_pair_step; [|done|].
    + rewrite IH; [by rewrite !app_assoc|].
      intros s' Hs'. apply Hks. by apply list_elem_of_further.
    + apply Hks, list_elem_of_here.
Qed.

Lemma infer_outer h D ks1 ks :
  (∀ s, s ∈ ks1 → (Sentence.cells s < length h)%nat) →
  (∀ s, s ∈ ks → (Sentence.cells s < length h)%nat) →
  foldl (fun acc first =>
           foldl (fun acc second => infer_pair first second acc) acc ks)
        (allocated h D, h ++ map fst D) ks1
  = (allocated h (D ++ flat_map (fun a =>
                         flat_map (infer_view a) (map (Sentence.view h) ks))
                        (map (Sentence.view h) ks1)),
     h ++ map fst (D ++ flat_map (fun a =>
                          flat_map (infer_view a) (map (Sentence.view h) ks))
                         (map (Sentence.view h) ks1))).
Proof.
  intros Hks1 Hks. revert D. induction ks1 as [|s ks1 IH]; intros D.
  - cbn. by rewrite app_nil_r.
  - cbn [foldl map flat_map].
    rewrite infer_inner; [|apply Hks1, list_elem_of_here|done].
    rewrite IH; [by rewrite !app_assoc|].
    intros s' Hs'. apply Hks1. by apply list_elem_of_further.
Qed.

Lemma infer_all_spec ks h :
  (∀ s, s ∈ ks → (Sentence.cells s < length h)%nat) →
  infer_all ks h
  = (allocated h (infer_views (map (Sentence.view h) ks)),
     h ++ map fst (infer_views (map (Sentence.view h) ks))).
Proof.
  intros Hks. unfold infer_all.
  pose proof (infer_outer h [] ks ks Hks Hks) as H.
  cbn [app map] in H. rewrite app_nil_r in H. exact H.
Qed.

Lemma wf_bound self s :
  wf self → s ∈ knowledge self →
  (Sentence.cells s < length (heap self))%nat.
Proof.
  intros [_ Hin] Hs. apply Hin. unfold locs.
  apply list_elem_of_In, in_map, list_elem_of_In, Hs.
Qed.

(** Step 5 appends, in a row, one new sentence for each pair that passes
    the tests of the loop body. *)
Lemma derive_spec self :
  wf self →
  same_board self (derive self)
  ∧ mines (derive self) = mines self
  ∧ safes (derive self) = safes self
  ∧ knowledge (derive self)
    = knowledge self ++ allocated (heap self) (infer_views (views self))
  ∧ heap (derive self) = heap self ++ map fst (infer_views (views self))
  ∧ views (derive self) = views self ++ infer_views (views self).
Proof.
  intros Hwf. unfold derive.
  rewrite infer_all_spec by (intros s; by apply wf_bound).
  fold (views self). unfold same_board. cbn.
  split_and!; try done.
  unfold views at 1. cbn [knowledge heap]. rewrite map_app. f_equal.
  - apply map_ext_in. intros s Hs. unfold Sentence.view. f_equal.
    apply deref_app_old, wf_bound; [done|]. by apply list_elem_of_In.
  - apply allocated_views.
Qed.

Lemma wf_derive self : wf self → wf (derive self).
Proof.
  intros Hwf. destruct (derive_spec self Hwf) as (_ & _ & _ & Hk & Hh & _).
  destruct Hwf as [Hnd Hin]. unfold wf, locs. rewrite Hk, Hh, map_app.
  rewrite allocated_cells, length_app, length_map. split.
  - apply NoDup_app. split_and!; [done| |apply NoDup_seq].
    intros l Hl Hl'. apply Hin in Hl. apply elem_of_seq in Hl'. lia.
  - intros l [Hl|Hl]%elem_of_app.
    + apply Hin in Hl. lia.
    + apply elem_of_seq in Hl. lia.
Qed.

End derivation.
Section observation.
Import MinesweeperAI.
Implicit Types (self : MinesweeperAI.t) (c : cell) (game : Minesweeper.t).

Lemma adjacent_chebyshev row column y x :
  adjacent row column y x = true ↔ chebyshev (row, column) (y, x) = 1.
Proof.
  unfold adjacent, chebyshev. cbn [fst snd].
  destruct (Z.eqb_spec (Z.abs (row - y)) 1);
    destruct (Z.eqb_spec (Z.abs (column - x)) 1);
    destruct (Z.eqb_spec (Z.abs (row - y)) 0);
    destruct (Z.eqb_spec (Z.abs (column - x)) 0);
    cbn; split; intros; try done; lia.
Qed.

Lemma collect_inner self c x ys (acc : cellset) e :
  e ∈ foldl (fun neighbours y =>
               if decide ((y, x) ∉ safes self) then
                 if adjacent c.1 c.2 y x then {[ (y, x) ]} ∪ neighbours
                 else neighbours
               else neighbours) acc ys
  ↔ e ∈ acc
    ∨ ∃ y, y ∈ ys ∧ e = (y, x) ∧ ((y, x) ∉ safes self)
           ∧ adjacent c.1 c.2 y x = true.
Proof.
  revert acc. induction ys as [|y ys IH]; intros acc; cbn [foldl].
  - split; [by left|]. intros [?|(y & Hy & _)]; [done|].
    by apply elem_of_nil in Hy.
  - rewrite IH. clear IH.
    assert ((∃ y0, y0 ∈ y :: ys ∧ e = (y0, x) ∧ ((y0, x) ∉ safes self)
                   ∧ adjacent c.1 c.2 y0 x = true)
            ↔ (e = (y, x) ∧ ((y, x) ∉ safes self)
               ∧ adjacent c.1 c.2 y x = true)
              ∨ ∃ y0, y0 ∈ ys ∧ e = (y0, x) ∧ ((y0, x) ∉ safes self)
                      ∧ adjacent c.1 c.2 y0 x = true) as ->.
    { split.
      - intros (y0 & [->|Hy]%elem_of_cons & H); [by left|right; eauto].
      - intros [H|(y0 & Hy & H)].
        + exists y. split; [apply list_elem_of_here|done].
        + exists y0. split; [by apply list_elem_of_further|done]. }
    destruct (decide ((y, x) ∉ safes self)) as [Hs|Hs];
      [destruct (adjacent c.1 c.2 y x) eqn:Ha|].
    + rewrite elem_of_union, elem_of_singleton. tauto.
    + intuition congruence.
    + tauto.
Qed.

Lemma collect_neighbours_spec self c e :
  e ∈ collect_neighbours self c
  ↔ on_board (height self) (width self) e
    ∧ (e ∉ safes self)
    ∧ chebyshev c e = 1.
Proof.
  unfold collect_neighbours.
  assert (∀ xs (acc : cellset),
    e ∈ foldl (fun neighbours x =>
      foldl (fun neighbours y =>
               if decide ((y, x) ∉ safes self) then
                 if adjacent c.1 c.2 y x then {[ (y, x) ]} ∪ neighbours
                 else neighbours
               else neighbours) neighbours (range 0 (height self)))
      acc xs
    ↔ e ∈ acc
      ∨ ∃ x y, x ∈ xs ∧ y ∈ range 0 (height self) ∧ e = (y, x)
               ∧ ((y, x) ∉ safes self) ∧ adjacent c.1 c.2 y x = true) as H.
  { induction xs as [|x xs IH]; intros acc; cbn [foldl].
    - split; [by left|]. intros [?|(x & y & Hx & _)]; [done|].
      by apply elem_of_nil in Hx.
    - rewrite IH, collect_inner. clear IH. split.
      + intros [[?|(y & Hy & H)]|(x' & y & Hx & H)].
        * by left.
        * right. exists x, y. split; [apply list_elem_of_here|done].
        * right. exists x', y. split; [by apply list_elem_of_further|done].
      + intros [?|(x' & y & [->|Hx]%elem_of_cons & H)].
        * by left; left.
        * left; right. exists y. done.
        * right. exists x', y. done. }
  rewrite H. unfold range, on_board. setoid_rewrite elem_of_seqZ.
  destruct c as [row column], e as [y x]. cbn [fst snd].
  rewrite <- adjacent_chebyshev. split.
  - intros [?|(x' & y' & Hx & Hy & [= -> ->] & Hs & Ha)]; [set_solver|].
    split_and!; try done; lia.
  - intros ([Hy Hx] & Hs & Ha). right. exists x, y.
    split_and!; try done; lia.
Qed.

Lemma count_inner game c i js count :
  foldl (fun count j =>
           if decide ((i, j) = c) then count
           else if Minesweeper.in_bounds game i j
                then (if Minesweeper.board game i j then count + 1
                      else count)
                else count) count js
  = count + Z.of_nat (length (filter (counted game c i) js)).
Proof.
  revert count. induction js as [|j js IH]; intros count; cbn [foldl].
  - cbn. lia.
  - rewrite IH. rewrite filter_cons.
    destruct (decide (counted game c i j)) as [(Hne & Hb & Hm)|Hn].
    + rewrite decide_False by done. rewrite Hb, Hm. cbn [length]. lia.
    + destruct (decide ((i, j) = c)) as [He|He]; [done|].
      destruct (Minesweeper.in_bounds game i j) eqn:Hb; [|done].
      destruct (Minesweeper.board game i j) eqn:Hm; [|done].
      by destruct Hn.
Qed.

Lemma nearby_mines_length game c :
  Minesweeper.nearby_mines game c
  = Z.of_nat (length (mined_neighbours game c)).
Proof.
  unfold Minesweeper.nearby_mines, mined_neighbours.
  generalize (range (c.1 - 1) (c.1 + 2)). intros rows.
  assert (∀ count,
    foldl (fun count i =>
      foldl (fun count j =>
               if decide ((i, j) = c) then count
               else if Minesweeper.in_bounds game i j
                    then (if Minesweeper.board game i j then count + 1
                          else count)
                    else count) count (range (c.2 - 1) (c.2 + 2)))
      count rows
    = count + Z.of_nat (length (rows ≫= fun i =>
        pair i <$> filter (counted game c i) (range (c.2 - 1) (c.2 + 2)))))
    as H; [|by rewrite H].
  induction rows as [|i rows IH]; intros count; cbn [foldl].
  - cbn. lia.
  - rewrite IH, count_inner, bind_cons, length_app, length_fmap. lia.
Qed.

Lemma mined_neighbours_NoDup game c : NoDup (mined_neighbours game c).
Proof.
  unfold mined_neighbours. apply NoDup_bind.
  - intros i1 i2 e _ _ (j1 & -> & _)%list_elem_of_fmap
      (j2 & [= -> _] & _)%list_elem_of_fmap. done.
  - intros i _. apply NoDup_fmap_2; [intros ?? [=]; done|].
    apply NoDup_filter, NoDup_seqZ.
  - apply NoDup_seqZ.
Qed.

Lemma mined_neighbours_spec game c e :
  e ∈ mined_neighbours game c
  ↔ on_board (Minesweeper.height game) (Minesweeper.width game) e
    ∧ e ∈ Minesweeper.mines game
    ∧ chebyshev c e = 1.
Proof.
  unfold mined_neighbours, range. rewrite list_elem_of_bind.
  setoid_rewrite elem_of_seqZ.
  setoid_rewrite list_elem_of_fmap. setoid_rewrite list_elem_of_filter.
  setoid_rewrite elem_of_seqZ.
  unfold counted, on_board, chebyshev, Minesweeper.in_bounds,
    Minesweeper.board.
  destruct c as [row column], e as [y x].
  cbn [fst snd]. split.
  - intros (i & (j & [= -> ->] & (Hne & Hb & Hm) & Hj) & Hi).
    apply bool_decide_eq_true in Hm.
    rewrite !andb_true_iff in Hb.
    destruct Hb as [[[?%Z.leb_le ?%Z.ltb_lt] ?%Z.leb_le] ?%Z.ltb_lt].
    split_and!; try done; try lia.
    assert (i ≠ row ∨ j ≠ column)
      by (destruct (decide (i = row)); [right|left]; congruence).
    lia.
  - intros ([Hy Hx] & Hm & Hd). exists y. split; [|lia]. exists x.
    split; [done|]. split; [|lia]. split_and!.
    + intros [= -> ->]. lia.
    + rewrite !andb_true_iff, !Z.leb_le, !Z.ltb_lt. lia.
    + by apply bool_decide_eq_true.
Qed.

(** The count the board reports is the number of mines among the cells of
    the new sentence, as long as no mine has been taken for safe. *)
Lemma nearby_mines_collect game self c :
  height self = Minesweeper.height game →
  width self = Minesweeper.width game →
  safes self ## Minesweeper.mines game →
  holds (Minesweeper.mines game)
        (collect_neighbours self c, Minesweeper.nearby_mines game c).
Proof.
  intros Hh Hw Hs. unfold holds. cbn [fst snd].
  rewrite nearby_mines_length.
  rewrite <- (size_list_to_set (C := cellset)) by apply mined_neighbours_NoDup.
  do 2 f_equal. apply set_eq. intros e.
  rewrite elem_of_list_to_set, mined_neighbours_spec, elem_of_intersection,
    collect_neighbours_spec, Hh, Hw.
  set_solver.
Qed.

End observation.
Section steps.
Import MinesweeperAI.
Implicit Types (self : MinesweeperAI.t) (c : cell).

Lemma same_board_refl self : same_board self self.
Proof. done. Qed.

Lemma same_board_trans self1 self2 self3 :
  same_board self1 self2 → same_board self2 self3 → same_board self1 self3.
Proof. unfold same_board. intros (-> & -> & ->) (-> & -> & ->). done. Qed.

Lemma wf_mark_mine self c : wf self → wf (mark_mine self c).
Proof.
  intros Hwf. eapply narrowed_wf; [|done].
  by destruct (mark_mine_spec self c (proj1 Hwf)) as (_ & _ & _ & ? & _).
Qed.

Lemma wf_mark_safe self c : wf self → wf (mark_safe self c).
Proof.
  intros Hwf. eapply narrowed_wf; [|done].
  by destruct (mark_safe_spec self c (proj1 Hwf)) as (_ & _ & _ & ? & _).
Qed.

Lemma kept_refl self : kept self self.
Proof. done. Qed.

Lemma kept_trans self1 self2 self3 :
  kept self1 self2 → kept self2 self3 → kept self1 self3.
Proof.
  intros (Hb & Hl & Hw) (Hb' & Hl' & Hw'). split_and!.
  - by eapply same_board_trans.
  - congruence.
  - auto.
Qed.

Lemma kept_mark_mine self c : kept self (mark_mine self c).
Proof.
  split_and!.
  - unfold mark_mine. by destruct (for_each _ _ _).
  - unfold mark_mine.
    pose proof (for_each_length (fun h s => Sentence.mark_mine h s c)
                  (knowledge self) (heap self)) as H.
    by destruct (for_each _ _ _).
  - apply wf_mark_mine.
Qed.

Lemma kept_mark_safe self c : kept self (mark_safe self c).
Proof.
  split_and!.
  - unfold mark_safe. by destruct (for_each _ _ _).
  - unfold mark_safe.
    pose proof (for_each_length (fun h s => Sentence.mark_safe h s c)
                  (knowledge self) (heap self)) as H.
    by destruct (for_each _ _ _).
  - apply wf_mark_safe.
Qed.

Lemma kept_mark_mines_in temp m self : kept self (mark_mines_in self temp m).
Proof.
  unfold mark_mines_in. revert self.
  induction temp as [|c rest IH]; intros self; [done|].
  cbn [foldl]. eapply kept_trans; [|apply IH].
  case_decide; [apply kept_mark_mine|done].
Qed.

Lemma kept_mark_safes_in temp m self : kept self (mark_safes_in self temp m).
Proof.
  unfold mark_safes_in. revert self.
  induction temp as [|c rest IH]; intros self; [done|].
  cbn [foldl]. eapply kept_trans; [|apply IH].
  case_decide; [apply kept_mark_safe|done].
Qed.

Lemma kept_with_heap_app self h' :
  kept self (with_heap self (heap self ++ h')).
Proof. split_and!; [done..|apply wf_with_heap_app]. Qed.

Lemma kept_known_mines self s :
  kept self (with_heap self (Sentence.known_mines (heap self) s).2).
Proof.
  unfold Sentence.known_mines. destruct (_ && _); cbn [snd Store.alloc].
  - by rewrite with_heap_same.
  - apply kept_with_heap_app.
Qed.

Lemma kept_known_safes self s :
  kept self (with_heap self (Sentence.known_safes (heap self) s).2).
Proof.
  unfold Sentence.known_safes. destruct (_ =? _); cbn [snd Store.alloc].
  - by rewrite with_heap_same.
  - apply kept_with_heap_app.
Qed.

Lemma kept_conclude self i : kept self (conclude self i).
Proof.
  unfold conclude, conclude_in.
  destruct (knowledge self !! i) as [s|]; [|apply kept_refl].
  pose proof (kept_known_mines self s) as H1.
  destruct (Sentence.known_mines (heap self) s) as [m h1]. cbn [snd] in H1.
  eapply kept_trans; [exact H1|].
  set (self2 := mark_mines_in _ _ _).
  apply (kept_trans _ self2); [apply kept_mark_mines_in|].
  destruct (knowledge self2 !! i) as [s'|]; [|apply kept_refl].
  pose proof (kept_known_safes self2 s') as H3.
  destruct (Sentence.known_safes (heap self2) s') as [sl h3].
  cbn [snd] in H3.
  eapply kept_trans; [exact H3|apply kept_mark_safes_in].
Qed.

Lemma kept_closure_pass self : kept self (closure_pass self).
Proof.
  unfold closure_pass, closure_pass_in.
  generalize (seq 0 (length (knowledge self))).
  intros idx. revert self.
  induction idx as [|i rest IH]; intros self; [done|].
  cbn [foldl]. eapply kept_trans; [apply kept_conclude|apply IH].
Qed.

(** Steps 1 to 3: the probed cell is recorded and marked safe, and one
    sentence, holding a new set object, is appended. *)
Lemma observe_cell_spec self c n :
  height (observe_cell self c n) = height self
  ∧ width (observe_cell self c n) = width self
  ∧ moves_made (observe_cell self c n) = {[c]} ∪ moves_made self
  ∧ mines (observe_cell self c n) = mines self
  ∧ safes (observe_cell self c n) = {[c]} ∪ safes self
  ∧ safes (record_move self c) = {[c]} ∪ safes self
  ∧ knowledge (observe_cell self c n)
    = knowledge (record_move self c)
      ++ [Sentence.mk (length (heap (record_move self c))) n]
  ∧ heap (observe_cell self c n)
    = heap (record_move self c) ++ [collect_neighbours (record_move self c) c].
Proof.
  unfold observe_cell, append_sentence, record_move, mark_safe.
  cbn [knowledge heap height width moves_made mines safes].
  destruct (for_each _ _ _) as [ks h]. cbn. done.
Qed.

Lemma wf_record_move self c : wf self → wf (record_move self c).
Proof. intros Hwf. unfold record_move. by apply wf_mark_safe. Qed.

Lemma observe_cell_views self c n :
  wf self →
  views (observe_cell self c n)
  = map (narrow_safe c) (views self)
    ++ [(collect_neighbours (record_move self c) c, n)].
Proof.
  intros Hwf.
  destruct (observe_cell_spec self c n) as (_ & _ & _ & _ & _ & _ & Hk & Hh).
  unfold views at 1. rewrite Hk, Hh, map_app. f_equal.
  - pose proof (wf_record_move self c Hwf) as Hwf1.
    transitivity (views (record_move self c)).
    + apply map_ext_in. intros s Hs. unfold Sentence.view. f_equal.
      apply deref_app_old, wf_bound; [done|]. by apply list_elem_of_In.
    + unfold record_move.
      destruct (mark_safe_spec
                  (mk (height self) (width self) ({[c]} ∪ moves_made self)
                      (mines self) (safes self) (knowledge self)
                      (heap self)) c (proj1 Hwf))
        as (_ & _ & _ & _ & Hv).
      exact Hv.
  - cbn [map]. unfold Sentence.view. cbn [Sentence.cells Sentence.count].
    by rewrite deref_app_new.
Qed.

Lemma wf_observe_cell self c n : wf self → wf (observe_cell self c n).
Proof.
  intros Hwf. pose proof (wf_record_move self c Hwf) as [Hnd Hin].
  destruct (observe_cell_spec self c n) as (_ & _ & _ & _ & _ & _ & Hk & Hh).
  unfold wf, locs. rewrite Hk, Hh, map_app, length_app.
  cbn [map length Sentence.cells]. split.
  - apply NoDup_app. split_and!; [done| |apply NoDup_singleton].
    intros l Hl Hl'%list_elem_of_singleton. apply Hin in Hl. lia.
  - intros l [Hl|Hl%list_elem_of_singleton]%elem_of_app;
      [apply Hin in Hl|]; lia.
Qed.

Lemma wf_add_knowledge self c n : wf self → wf (add_knowledge self c n).
Proof.
  intros Hwf. unfold add_knowledge. apply wf_derive.
  apply (kept_closure_pass _), wf_observe_cell, Hwf.
Qed.

Lemma wf_init height width : wf (init height width).
Proof. split; [constructor|]. intros l Hl. by apply elem_of_nil in Hl. Qed.

Lemma reachable_wf self : reachable self → wf self.
Proof.
  induction 1; [apply wf_init|by apply wf_add_knowledge].
Qed.

Lemma add_knowledge_board self c n :
  height (add_knowledge self c n) = height self
  ∧ width (add_knowledge self c n) = width self
  ∧ moves_made (add_knowledge self c n) = {[c]} ∪ moves_made self.
Proof.
  unfold add_knowledge.
  destruct (observe_cell_spec self c n) as (Hh & Hw & Hm & _).
  destruct (kept_closure_pass (observe_cell self c n))
    as ((Hh' & Hw' & Hm') & _).
  revert Hh' Hw' Hm'. generalize (closure_pass (observe_cell self c n)).
  intros self2 Hh' Hw' Hm'.
  unfold derive. destruct (infer_all _ _) as [temp h].
  cbn [height width moves_made]. rewrite Hh', Hw', Hm'. done.
Qed.

End steps.
(** ** The order in which a set is iterated does not matter *)

Section order.
Import MinesweeperAI.
Implicit Types (h : Store.t) (self : MinesweeperAI.t) (c : cell)
  (v : cellset * Z).

(** The loops of [Sentence.mark_mine] and [Sentence.mark_safe] only test
    whether [cell] is among the items they visit. *)
Lemma mark_mine_loop_any_order items h (s : Sentence.t) c :
  (∀ x, x ∈ items ↔ x ∈ Store.deref h (Sentence.cells s)) →
  Sentence.mark_mine_loop items h s c = Sentence.mark_mine h s c.
Proof.
  intros Hi. rewrite mark_mine_loop_unfold, mark_mine_unfold.
  destruct (decide (c ∈ items)) as [Hc|Hc].
  - by rewrite decide_True by (by apply Hi).
  - by rewrite decide_False by (by rewrite <- Hi).
Qed.

Lemma mark_safe_loop_any_order items h (s : Sentence.t) c :
  (∀ x, x ∈ items ↔ x ∈ Store.deref h (Sentence.cells s)) →
  Sentence.mark_safe_loop items h s c = Sentence.mark_safe h s c.
Proof.
  intros Hi. rewrite mark_safe_loop_unfold, mark_safe_unfold.
  destruct (decide (c ∈ items)) as [Hc|Hc].
  - by rewrite decide_True by (by apply Hi).
  - by rewrite decide_False by (by rewrite <- Hi).
Qed.

Lemma narrow_mine_comm c1 c2 v :
  narrow_mine c1 (narrow_mine c2 v) = narrow_mine c2 (narrow_mine c1 v).
Proof.
  destruct (decide (c1 = c2)) as [->|Hne]; [done|].
  unfold narrow_mine. destruct v as [X n]. cbn [fst snd].
  destruct (decide (c2 ∈ X)) as [H2|H2], (decide (c1 ∈ X)) as [H1|H1];
    cbn [fst snd].
  - rewrite decide_True by set_solver. rewrite decide_True by set_solver.
    f_equal. set_solver.
  - rewrite decide_False by set_solver. by rewrite decide_True by done.
  - rewrite decide_True by done. by rewrite decide_False by set_solver.
  - rewrite decide_False by done. by rewrite decide_False by done.
Qed.

Lemma narrow_safe_comm c1 c2 v :
  narrow_safe c1 (narrow_safe c2 v) = narrow_safe c2 (narrow_safe c1 v).
Proof.
  destruct (decide (c1 = c2)) as [->|Hne]; [done|].
  unfold narrow_safe. destruct v as [X n]. cbn [fst snd].
  destruct (decide (c2 ∈ X)) as [H2|H2], (decide (c1 ∈ X)) as [H1|H1];
    cbn [fst snd].
  - rewrite decide_True by set_solver. rewrite decide_True by set_solver.
    f_equal. set_solver.
  - rewrite decide_False by set_solver. by rewrite decide_True by done.
  - rewrite decide_True by done. by rewrite decide_False by set_solver.
  - rewrite decide_False by done. by rewrite decide_False by done.
Qed.

Lemma store_ext h h' :
  length h = length h' →
  (∀ l, Store.deref h l = Store.deref h' l) → h = h'.
Proof.
  intros Hlen Hd. apply list_eq. intros l. specialize (Hd l).
  unfold Store.deref in Hd.
  destruct (h !! l) as [x|] eqn:E, (h' !! l) as [x'|] eqn:E'; cbn in Hd.
  - by rewrite Hd.
  - apply lookup_lt_Some in E. apply lookup_ge_None in E'. lia.
  - apply lookup_ge_None in E. apply lookup_lt_Some in E'. lia.
  - done.
Qed.

Lemma views_ext h h' (ks ks' : list Sentence.t) :
  map Sentence.cells ks = map Sentence.cells ks' →
  map (Sentence.view h) ks = map (Sentence.view h') ks' →
  ks = ks'
  ∧ ∀ l, l ∈ map Sentence.cells ks → Store.deref h l = Store.deref h' l.
Proof.
  revert ks'. induction ks as [|s ks IH]; intros [|s' ks'] Hc Hv;
    try discriminate.
  - split; [done|]. intros l Hl. by apply elem_of_nil in Hl.
  - cbn [map] in Hc, Hv. injection Hc as Hc1 Hc. injection Hv as Hd Hn Hv.
    destruct (IH ks' Hc Hv) as [-> Hrest]. split.
    + destruct s, s'. cbn in *. by subst.
    + intros l [->|Hl]%elem_of_cons; [by rewrite Hd, Hc1|by apply Hrest].
Qed.

(** Two engine states are the same when they agree on what they know and
    on the store, inside and outside the knowledge base. *)
Lemma state_ext self self' :
  same_board self self' →
  mines self' = mines self →
  safes self' = safes self →
  locs self' = locs self →
  views self' = views self →
  length (heap self') = length (heap self) →
  (∀ l, l ∉ locs self →
        Store.deref (heap self') l = Store.deref (heap self) l) →
  self' = self.
Proof.
  intros (Hh & Hw & Hmm) Hm Hs Hl Hv Hlen Hframe.
  destruct (views_ext _ _ _ _ Hl Hv) as [Hk Hin].
  assert (heap self' = heap self) as Hheap.
  { apply store_ext; [done|]. intros l.
    destruct (decide (l ∈ locs self)) as [Hl'|Hl']; [|by apply Hframe].
    apply Hin. unfold locs in Hl'. by rewrite Hk. }
  destruct self, self'. cbn in *. by subst.
Qed.

Lemma mark_mine_comm self c1 c2 :
  wf self →
  mark_mine (mark_mine self c1) c2 = mark_mine (mark_mine self c2) c1.
Proof.
  intros Hwf.
  pose proof (wf_mark_mine self c1 Hwf) as Hwf1.
  pose proof (wf_mark_mine self c2 Hwf) as Hwf2.
  destruct (mark_mine_spec self c1 (proj1 Hwf))
    as (Hb1 & Hm1 & Hs1 & (Hl1 & Hn1 & Hf1 & _) & Hv1).
  destruct (mark_mine_spec self c2 (proj1 Hwf))
    as (Hb2 & Hm2 & Hs2 & (Hl2 & Hn2 & Hf2 & _) & Hv2).
  destruct (mark_mine_spec _ c2 (proj1 Hwf1))
    as (Hb12 & Hm12 & Hs12 & (Hl12 & Hn12 & Hf12 & _) & Hv12).
  destruct (mark_mine_spec _ c1 (proj1 Hwf2))
    as (Hb21 & Hm21 & Hs21 & (Hl21 & Hn21 & Hf21 & _) & Hv21).
  apply state_ext.
  - destruct Hb1 as (? & ? & ?), Hb2 as (? & ? & ?), Hb12 as (? & ? & ?),
      Hb21 as (? & ? & ?). unfold same_board. split_and!; congruence.
  - rewrite Hm12, Hm21, Hm1, Hm2. set_solver.
  - congruence.
  - congruence.
  - rewrite Hv12, Hv21, Hv1, Hv2, !map_map. apply map_ext.
    intros v. apply narrow_mine_comm.
  - congruence.
  - intros l Hl. rewrite Hl21, Hl2 in Hl.
    rewrite Hf12 by (by rewrite Hl1). rewrite Hf1 by done.
    rewrite Hf21 by (by rewrite Hl2). by rewrite Hf2.
Qed.

Lemma mark_safe_comm self c1 c2 :
  wf self →
  mark_safe (mark_safe self c1) c2 = mark_safe (mark_safe self c2) c1.
Proof.
  intros Hwf.
  pose proof (wf_mark_safe self c1 Hwf) as Hwf1.
  pose proof (wf_mark_safe self c2 Hwf) as Hwf2.
  destruct (mark_safe_spec self c1 (proj1 Hwf))
    as (Hb1 & Hm1 & Hs1 & (Hl1 & Hn1 & Hf1 & _) & Hv1).
  destruct (mark_safe_spec self c2 (proj1 Hwf))
    as (Hb2 & Hm2 & Hs2 & (Hl2 & Hn2 & Hf2 & _) & Hv2).
  destruct (mark_safe_spec _ c2 (proj1 Hwf1))
    as (Hb12 & Hm12 & Hs12 & (Hl12 & Hn12 & Hf12 & _) & Hv12).
  destruct (mark_safe_spec _ c1 (proj1 Hwf2))
    as (Hb21 & Hm21 & Hs21 & (Hl21 & Hn21 & Hf21 & _) & Hv21).
  apply state_ext.
  - destruct Hb1 as (? & ? & ?), Hb2 as (? & ? & ?), Hb12 as (? & ? & ?),
      Hb21 as (? & ? & ?). unfold same_board. split_and!; congruence.
  - congruence.
  - rewrite Hs12, Hs21, Hs1, Hs2. set_solver.
  - congruence.
  - rewrite Hv12, Hv21, Hv1, Hv2, !map_map. apply map_ext.
    intros v. apply narrow_safe_comm.
  - congruence.
  - intros l Hl. rewrite Hl21, Hl2 in Hl.
    rewrite Hf12 by (by rewrite Hl1). rewrite Hf1 by done.
    rewrite Hf21 by (by rewrite Hl2). by rewrite Hf2.
Qed.

Lemma for_each_removes c body ks h l :
  removes c body →
  Store.deref (for_each body ks h).2 l ∖ {[c]} = Store.deref h l ∖ {[c]}.
Proof.
  intros Hbody. revert h. induction ks as [|s ks IH]; intros h; [done|].
  cbn [for_each]. specialize (Hbody h s l).
  destruct (body h s) as [s' h1]. specialize (IH h1).
  destruct (for_each body ks h1) as [ks' h2]. cbn [snd] in *. congruence.
Qed.

Lemma update_removes c h l0 l :
  Store.deref (Store.update h l0 (Store.deref h l0 ∖ {[c]})) l ∖ {[c]}
  = Store.deref h l ∖ {[c]}.
Proof.
  destruct (decide (l0 = l)) as [->|Hne].
  - destruct (decide (l < length h)%nat).
    + rewrite deref_update_eq by done. set_solver.
    + unfold Store.update. by rewrite list_insert_ge by lia.
  - by rewrite deref_update_ne.
Qed.

Lemma mark_mine_removes c :
  removes c (fun h s => Sentence.mark_mine h s c).
Proof.
  intros h s l. rewrite mark_mine_unfold.
  case_decide; [apply update_removes|done].
Qed.

Lemma mark_safe_removes c :
  removes c (fun h s => Sentence.mark_safe h s c).
Proof.
  intros h s l. rewrite mark_safe_unfold.
  case_decide; [apply update_removes|done].
Qed.

Lemma mark_mine_other self c c' l :
  c ≠ c' →
  c' ∈ Store.deref (heap (mark_mine self c)) l
  ↔ c' ∈ Store.deref (heap self) l.
Proof.
  intros Hne. unfold mark_mine.
  pose proof (for_each_removes c _ (knowledge self) (heap self) l
                (mark_mine_removes c)) as H.
  destruct (for_each _ _ _) as [ks h]. cbn [heap snd] in *. set_solver.
Qed.

Lemma mark_safe_other self c c' l :
  c ≠ c' →
  c' ∈ Store.deref (heap (mark_safe self c)) l
  ↔ c' ∈ Store.deref (heap self) l.
Proof.
  intros Hne. unfold mark_safe.
  pose proof (for_each_removes c _ (knowledge self) (heap self) l
                (mark_safe_removes c)) as H.
  destruct (for_each _ _ _) as [ks h]. cbn [heap snd] in *. set_solver.
Qed.

Lemma foldl_permutation_wf {A} (f : MinesweeperAI.t → A → MinesweeperAI.t)
    (l l' : list A) self :
  (∀ self a, wf self → wf (f self a)) →
  (∀ self a b, wf self → f (f self a) b = f (f self b) a) →
  l ≡ₚ l' → wf self → foldl f self l = foldl f self l'.
Proof.
  intros Hwf Hcomm Hp. revert self.
  induction Hp as [|x l l' _ IH|x y l|l1 l2 l3 _ IH1 _ IH2]; intros self Hs.
  - done.
  - cbn [foldl]. by apply IH, Hwf.
  - cbn [foldl]. by rewrite Hcomm.
  - by rewrite IH1, IH2.
Qed.

Lemma mark_mines_in_permutation self temp temp' m :
  wf self → temp ≡ₚ temp' →
  mark_mines_in self temp m = mark_mines_in self temp' m.
Proof.
  intros Hwf Hp. unfold mark_mines_in.
  apply foldl_permutation_wf; [| |done..].
  - intros s c Hs. case_decide; [by apply wf_mark_mine|done].
  - intros s a b Hs. destruct (decide (a = b)) as [->|Hne]; [done|].
    destruct (decide (a ∈ Store.deref (heap s) m)) as [Ha|Ha],
             (decide (b ∈ Store.deref (heap s) m)) as [Hb|Hb].
    all: repeat first
      [ rewrite decide_True by (first [done | by apply mark_mine_other])
      | rewrite decide_False by (first [done | by rewrite mark_mine_other]) ].
    all: first [done | by apply mark_mine_comm].
Qed.

Lemma mark_safes_in_permutation self temp temp' m :
  wf self → temp ≡ₚ temp' →
  mark_safes_in self temp m = mark_safes_in self temp' m.
Proof.
  intros Hwf Hp. unfold mark_safes_in.
  apply foldl_permutation_wf; [| |done..].
  - intros s c Hs. case_decide; [by apply wf_mark_safe|done].
  - intros s a b Hs. destruct (decide (a = b)) as [->|Hne]; [done|].
    destruct (decide (a ∈ Store.deref (heap s) m)) as [Ha|Ha],
             (decide (b ∈ Store.deref (heap s) m)) as [Hb|Hb].
    all: repeat first
      [ rewrite decide_True by (first [done | by apply mark_safe_other])
      | rewrite decide_False by (first [done | by rewrite mark_safe_other]) ].
    all: first [done | by apply mark_safe_comm].
Qed.

Lemma conclude_any_order order self i :
  (∀ X, order X ≡ₚ elements X) → wf self →
  conclude_in order self i = conclude self i.
Proof.
  intros Ho Hwf. unfold conclude, conclude_in.
  destruct (knowledge self !! i) as [s|]; [|done].
  pose proof (kept_known_mines self s) as (_ & _ & Hwf1).
  destruct (Sentence.known_mines (heap self) s) as [m h1]. cbn [snd] in Hwf1.
  specialize (Hwf1 Hwf).
  rewrite (mark_mines_in_permutation _ _ _ m Hwf1 (Ho _)).
  pose proof (kept_mark_mines_in
                (elements (Store.deref h1 (Sentence.cells s))) m
                (with_heap self h1)) as (_ & _ & Hwf2).
  specialize (Hwf2 Hwf1). revert Hwf2.
  generalize (mark_mines_in (with_heap self h1)
                (elements (Store.deref h1 (Sentence.cells s))) m).
  intros self2 Hwf2.
  destruct (knowledge self2 !! i) as [s'|]; [|done].
  pose proof (kept_known_safes self2 s') as (_ & _ & Hwf3).
  destruct (Sentence.known_safes (heap self2) s') as [sl h3].
  cbn [snd] in Hwf3. by apply mark_safes_in_permutation, Ho; auto.
Qed.

(** X7: in an engine whose sentences do not share set objects, step 4
    leaves the same engine state whatever the order in which Python
    iterates over the cells of a set. *)
Theorem closure_pass_any_order order self :
  (∀ X, order X ≡ₚ elements X) → wf self →
  closure_pass_in order self = closure_pass self.
Proof.
  intros Ho. unfold closure_pass, closure_pass_in.
  generalize (seq 0 (length (knowledge self))). intros idx. revert self.
  induction idx as [|i idx IH]; intros self Hwf; [done|].
  cbn [foldl]. rewrite conclude_any_order by done.
  apply IH. by apply (kept_conclude self i).
Qed.

End order.
Section layout.
Import MinesweeperAI.
Variable game : Minesweeper.t.
Implicit Types (self : MinesweeperAI.t) (c : cell).

Let L := Minesweeper.mines game.

Lemma inv_infer_views vs :
  Forall (holds L) vs → Forall (holds L) (infer_views vs).
Proof.
  intros Hvs. unfold infer_views. rewrite Forall_forall in Hvs.
  apply Forall_forall. intros d Hd. apply list_elem_of_In in Hd.
  apply in_flat_map in Hd as (a & Ha & Hd).
  apply in_flat_map in Hd as (b & Hb & Hd).
  apply list_elem_of_In in Ha, Hb. unfold infer_view in Hd.
  repeat case_decide; try done.
  destruct (_ || _); [done|]. destruct (_ || _); [done|].
  destruct Hd as [<-|[]]. apply holds_difference; auto.
Qed.

Lemma inv_derive self : inv L self → inv L (derive self).
Proof.
  intros (Hwf & [Hm Hs] & Hh).
  destruct (derive_spec self Hwf) as (_ & Em & Es & _ & _ & Ev).
  unfold inv, sound. rewrite Em, Es, Ev. split_and!; try done.
  - by apply wf_derive.
  - apply Forall_app. split; [done|]. by apply inv_infer_views.
Qed.

Lemma inv_record_move self c :
  c ∉ L → inv L self → inv L (record_move self c).
Proof. intros Hc Hinv. unfold record_move. by apply inv_mark_safe. Qed.

Lemma inv_observe_cell self c :
  fitted game self → c ∉ L → inv L self →
  inv L (observe_cell self c (Minesweeper.nearby_mines game c)).
Proof.
  intros [Hh Hw] Hc Hinv.
  pose proof (inv_record_move self c Hc Hinv) as (Hwf1 & [Hm1 Hs1] & Hh1).
  destruct (observe_cell_spec self c (Minesweeper.nearby_mines game c))
    as (_ & _ & _ & Em & Es & Es1 & _ & _).
  pose proof (proj1 Hinv) as Hwf.
  unfold inv, sound. rewrite Em, Es, observe_cell_views by done.
  destruct Hinv as (_ & [Hm Hs] & Hv). split_and!; try done.
  - by apply wf_observe_cell.
  - set_solver.
  - apply Forall_app. split.
    + apply Forall_map. eapply Forall_impl; [exact Hv|].
      intros v. by apply holds_narrow_safe.
    + apply Forall_singleton. apply nearby_mines_collect; [| |done].
      * unfold record_move, mark_safe. by destruct (for_each _ _ _).
      * unfold record_move, mark_safe. by destruct (for_each _ _ _).
Qed.

Lemma inv_add_knowledge self c :
  fitted game self → c ∉ L → inv L self →
  inv L (add_knowledge self c (Minesweeper.nearby_mines game c)).
Proof.
  intros Hf Hc Hinv. unfold add_knowledge.
  by apply inv_derive, inv_closure_pass, inv_observe_cell.
Qed.

Lemma inv_init height width : inv L (init height width).
Proof.
  unfold inv, sound. cbn [init mines safes]. split_and!.
  - apply wf_init.
  - apply empty_subseteq.
  - apply disjoint_empty_l.
  - constructor.
Qed.

Lemma fitted_add_knowledge self c n :
  fitted game self → fitted game (add_knowledge self c n).
Proof.
  intros [Hh Hw]. destruct (add_knowledge_board self c n) as (Hh' & Hw' & _).
  unfold fitted. by rewrite Hh', Hw'.
Qed.

Lemma run_snoc self obs o :
  run self (obs ++ [o]) = add_knowledge (run self obs) o.1 o.2.
Proof. unfold run. by rewrite foldl_app. Qed.

(** The knowledge base stays true of the board over any run of probes
    that the board answered. *)
Lemma run_inv obs :
  consistent game obs →
  fitted game (run (engine_for game) obs) ∧ inv L (run (engine_for game) obs).
Proof.
  intros [_ Hobs]. induction obs as [|o obs IH] using rev_ind.
  - split; [done|apply inv_init].
  - apply Forall_app in Hobs as [Hobs [[Ho1 Ho2] _]%Forall_cons].
    destruct (IH Hobs) as [Hf Hinv]. rewrite run_snoc, Ho2. split.
    + by apply fitted_add_knowledge.
    + by apply inv_add_knowledge.
Qed.

Lemma consistent_take obs k :
  consistent game obs → consistent game (take k obs).
Proof.
  intros [Hnd Hobs]. split.
  - rewrite <- (take_drop k obs) in Hnd. rewrite map_app in Hnd.
    by apply NoDup_app in Hnd as (? & _ & _).
  - by apply Forall_take.
Qed.

End layout.
Section random_move.
Import MinesweeperAI.
Implicit Types (self : MinesweeperAI.t) (c : cell).

Lemma scan_row_spec self x ys :
  scan_row self x ys
  = head (filter (fun c => c ∉ moves_made self ∪ mines self)
            (pair x <$> ys)).
Proof.
  induction ys as [|y ys IH]; [done|].
  cbn [scan_row fmap list_fmap]. rewrite filter_cons.
  destruct (decide (((x, y) ∉ moves_made self) ∧ ((x, y) ∉ mines self)))
    as [[H1 H2]|Hn].
  - rewrite decide_True; [done|]. by apply not_elem_of_union.
  - rewrite decide_False; [done|]. by rewrite not_elem_of_union.
Qed.

Lemma head_filter_app {A} (P : A → Prop) `{∀ x, Decision (P x)}
    (l k : list A) :
  head (filter P (l ++ k))
  = match head (filter P l) with
    | Some a => Some a
    | None => head (filter P k)
    end.
Proof.
  rewrite filter_app. by destruct (filter P l).
Qed.

Lemma scan_rows_spec self xs :
  scan_rows self xs
  = head (filter (fun c => c ∉ moves_made self ∪ mines self)
            (xs ≫= fun x => pair x <$> range 0 (width self))).
Proof.
  induction xs as [|x xs IH]; [done|].
  cbn [scan_rows]. rewrite bind_cons, head_filter_app, <- scan_row_spec, IH.
  done.
Qed.

Lemma make_random_move_spec self :
  make_random_move self
  = (first_free (height self) (width self) (moves_made self) (mines self),
     self).
Proof.
  unfold make_random_move, first_free, row_major. by rewrite scan_rows_spec.
Qed.

Lemma elem_of_row_major height width c :
  c ∈ row_major height width ↔ on_board height width c.
Proof.
  unfold row_major, range, on_board. rewrite list_elem_of_bind.
  setoid_rewrite elem_of_seqZ. setoid_rewrite list_elem_of_fmap.
  setoid_rewrite elem_of_seqZ. destruct c as [x y]. cbn [fst snd]. split.
  - intros (x' & (y' & [= -> ->] & Hy) & Hx). lia.
  - intros [Hx Hy]. exists x. split; [|lia]. exists y. split; [done|lia].
Qed.

Lemma head_filter_Some {A} (P : A → Prop) `{∀ x, Decision (P x)}
    (l : list A) a :
  head (filter P l) = Some a → P a ∧ a ∈ l.
Proof.
  intros Hh. apply (list_elem_of_filter P l a).
  destruct (filter P l) as [|b k]; [done|].
  injection Hh as ->. apply list_elem_of_here.
Qed.

Lemma head_filter_None {A} (P : A → Prop) `{∀ x, Decision (P x)}
    (l : list A) :
  head (filter P l) = None ↔ ∀ a, a ∈ l → ¬ P a.
Proof.
  split.
  - intros Hh a Ha HP.
    assert (a ∈ filter P l) as Hin by (by apply list_elem_of_filter).
    destruct (filter P l); [by apply elem_of_nil in Hin|done].
  - intros Hall. destruct (filter P l) as [|a k] eqn:E; [done|].
    assert (a ∈ filter P l) as [HP Ha]%list_elem_of_filter
      by (rewrite E; apply list_elem_of_here).
    by destruct (Hall a Ha).
Qed.

End random_move.
Section subtraction.
Import MinesweeperAI.
Implicit Types (self : MinesweeperAI.t) (a b d : cellset * Z).

Lemma infer_view_qualifies a b :
  0 <= a.2 → 0 <= b.2 →
  infer_view a b
  = if decide (qualifies a b) then [(b.1 ∖ a.1, b.2 - a.2)] else [].
Proof.
  intros Ha Hb. unfold infer_view, qualifies.
  destruct (decide (a.1 ⊆ b.1)) as [Hsub|Hsub];
    [|rewrite decide_False by tauto; done].
  destruct (decide (a.1 = b.1)) as [Heq|Hne];
    [rewrite decide_False by tauto; done|].
  destruct (Z.eqb_spec a.2 0) as [Ha0|Ha0]; cbn [orb];
    [rewrite decide_False by lia; done|].
  destruct (Z.eqb_spec b.2 0) as [Hb0|Hb0]; cbn [orb];
    [rewrite decide_False by lia; done|].
  destruct (Z.eqb_spec (Z.of_nat (size a.1)) 0) as [Hsa|Hsa]; cbn [orb].
  { rewrite decide_False; [done|]. intros (_ & _ & Hae & _).
    apply Hae, leibniz_equiv, size_empty_iff. lia. }
  destruct (Z.eqb_spec (Z.of_nat (size b.1)) 0) as [Hsb|Hsb]; cbn [orb].
  { rewrite decide_False; [done|]. intros (_ & _ & _ & Hbe & _).
    apply Hbe, leibniz_equiv, size_empty_iff. lia. }
  rewrite decide_True; [done|]. split_and!; try done; try lia.
  - intros He. rewrite He, size_empty in Hsa. lia.
  - intros He. rewrite He, size_empty in Hsb. lia.
Qed.

Lemma flat_map_ext_in {A B} (f g : A → list B) (l : list A) :
  (∀ x, x ∈ l → f x = g x) → flat_map f l = flat_map g l.
Proof.
  induction l as [|x l IH]; intros H; [done|]. cbn [flat_map].
  rewrite (H x) by apply list_elem_of_here. f_equal. apply IH.
  intros y Hy. apply H. by apply list_elem_of_further.
Qed.

Lemma infer_views_subtraction vs :
  Forall (fun v => 0 <= v.2) vs → infer_views vs = subset_subtraction vs.
Proof.
  intros Hvs. rewrite Forall_forall in Hvs.
  unfold infer_views, subset_subtraction.
  apply flat_map_ext_in. intros a Ha. apply flat_map_ext_in. intros b Hb.
  apply infer_view_qualifies; auto.
Qed.

Lemma infer_view_differs a b d :
  d ∈ infer_view a b → d.1 ≠ a.1 ∧ d.1 ≠ b.1.
Proof.
  unfold infer_view. repeat case_decide; try (by intros ?%elem_of_nil).
  destruct (_ || _); [by intros ?%elem_of_nil|].
  destruct (Z.eqb_spec (Z.of_nat (size a.1)) 0) as [|Hsa]; cbn [orb];
    [by intros ?%elem_of_nil|].
  destruct (_ =? _); [by intros ?%elem_of_nil|].
  intros ->%list_elem_of_singleton. cbn [fst].
  assert (∃ x, x ∈ a.1) as [x Hx].
  { apply set_choose_L. intros He. rewrite He, size_empty in Hsa. lia. }
  split; intros Heq.
  - assert (x ∈ b.1 ∖ a.1) as Hd by (by rewrite Heq). set_solver.
  - assert (x ∈ b.1 ∖ a.1) as Hd by (rewrite Heq; set_solver). set_solver.
Qed.

Lemma wf_before_derive self c n :
  reachable self → wf (closure_pass (observe_cell self c n)).
Proof.
  intros Hr. apply (kept_closure_pass _), wf_observe_cell, reachable_wf, Hr.
Qed.

End subtraction.

Lemma reachable_run height width obs :
  reachable (run (MinesweeperAI.init height width) obs).
Proof.
  induction obs as [|o obs IH] using rev_ind.
  - apply reachable_init.
  - rewrite run_snoc. by apply reachable_add.
Qed.

Lemma top_row_consistent : consistent top_row_game top_row_probes.
Proof.
  split.
  - apply (bool_decide_unpack _). vm_compute. exact I.
  - repeat apply Forall_cons_2; try apply Forall_nil_2.
    all: split; [apply (bool_decide_unpack _); vm_compute; exact I
                |vm_compute; reflexivity].
Defined.

Section counts.
Import MinesweeperAI.

Lemma holds_nonneg L (v : cellset * Z) : holds L v → 0 <= v.2.
Proof. unfold holds. intros ->. lia. Qed.

(** Within the contract of [add_knowledge] no count is negative when
    step 5 starts. *)
Lemma consistent_counts_nonneg game obs c n :
  consistent game (obs ++ [(c, n)]) →
  Forall (fun v => 0 <= v.2)
         (views (closure_pass (observe_cell (run (engine_for game) obs) c n))).
Proof.
  intros [Hnd Hobs]. apply Forall_app in Hobs as [Hobs Ho].
  apply Forall_cons in Ho as [[Hc Hn] _]. cbn [fst snd] in Hc, Hn.
  assert (consistent game obs) as Hcons.
  { split; [|done]. rewrite map_app in Hnd.
    by apply NoDup_app in Hnd as (? & _ & _). }
  destruct (run_inv game obs Hcons) as [Hf Hinv]. subst n.
  pose proof (inv_closure_pass _ _
                (inv_observe_cell game _ c Hf Hc Hinv)) as (_ & _ & Hh).
  eapply Forall_impl; [exact Hh|]. intros v. apply holds_nonneg.
Qed.

End counts.
(** ** Sentence.mark_mine and Sentence.mark_safe against [count <= |cells|] *)

Lemma narrow_view h self op :
  Sentence.view (narrow h self op).2 (narrow h self op).1
  = match op with
    | AsMine c => narrow_mine c (Sentence.view h self)
    | AsSafe c => narrow_safe c (Sentence.view h self)
    end.
Proof. destruct op; [apply mark_mine_view | apply mark_safe_view]. Qed.

(** C4, as stated, fails: [mark_safe] removes a cell and leaves [count]
    alone, so on a sentence with [count = |cells|] it leaves
    [count = |cells| + 1].  Here ({(0,0)}, 1) becomes ({}, 1). *)
Lemma mark_safe_breaks_fits :
  let '(self, h) := Sentence.init [] {[ (0, 0) ]} 1 in
  let '(self', h') := narrow_all h self [AsSafe (0, 0)] in
  fits (Sentence.view h self) ∧ ¬ fits (Sentence.view h' self').
Proof. vm_compute. split; [discriminate | intros H; by apply H]. Qed.

(** C4 (amended): [count <= |cells|] survives every sequence of
    [mark_mine] calls with arbitrary cells and of [mark_safe] calls each of
    which names a cell outside the sentence or finds [count < |cells|]. *)
Theorem narrowing_keeps_fits h self ops :
  fits (Sentence.view h self) →
  spare_all h self ops →
  fits (Sentence.view (narrow_all h self ops).2 (narrow_all h self ops).1).
Proof.
  revert h self. induction ops as [|op rest IH]; intros h self Hfit Hsp.
  - done.
  - cbn [narrow_all spare_all] in *. destruct Hsp as [Hop Hrest].
    pose proof (narrow_view h self op) as Hv.
    destruct (narrow h self op) as [self' h'] eqn:E. cbn [fst snd] in Hv.
    apply IH; [|done]. rewrite Hv. destruct op as [c|c].
    + by apply narrow_mine_fits.
    + by apply narrow_safe_fits.
Qed.

Lemma narrowing_keeps_fits_witness :
  let self := corner_sentence.1 in
  let h := corner_sentence.2 in
  fits (Sentence.view h self)
  ∧ spare_all h self corner_narrowings
  ∧ fits (Sentence.view (narrow_all h self corner_narrowings).2
                        (narrow_all h self corner_narrowings).1).
Proof.
  assert (fits (Sentence.view corner_sentence.2 corner_sentence.1)) as Hfit
    by (vm_compute; discriminate).
  assert (spare_all corner_sentence.2 corner_sentence.1 corner_narrowings)
    as Hsp.
  { vm_compute. repeat split.
    all: try (left; intros H; exact H).
    all: right; reflexivity. }
  split; [exact Hfit|]. split; [exact Hsp|].
  exact (narrowing_keeps_fits _ _ _ Hfit Hsp).
Defined.

(** ** Sentence.known_mines *)

(** C8, as stated, fails on "a fresh set not aliased": when the test
    succeeds the method returns [self.cells] itself.  The reference it
    returns is the sentence's own, and a later [mark_safe] on the sentence
    shows through it. *)
Lemma known_mines_returns_own_cells :
  let '(self, h) := Sentence.init [] {[ (0, 0); (0, 1) ]} 2 in
  let '(r, h1) := Sentence.known_mines h self in
  let '(self', h2) := Sentence.mark_safe h1 self (0, 0) in
  r = Sentence.cells self
  ∧ Store.deref h1 r = {[ (0, 0); (0, 1) ]}
  ∧ Store.deref h2 r = {[ (0, 1) ]}.
Proof. vm_compute. done. Qed.

(** C8 (amended): for a sentence whose set object is in the store,
    [known_mines] returns the sentence's own [cells] object, holding the
    full cell set, when [count > 0] and [count = |cells|]; otherwise it
    returns a new object, different from every object of the store, that
    holds the empty set.  Either way the sentence and the sets of the store
    are as they were. *)
Theorem known_mines_contract h self :
  (Sentence.cells self < length h)%nat →
  let '(r, h') := Sentence.known_mines h self in
  (if decide (Sentence.count self > 0
              ∧ Sentence.count self
                = Z.of_nat (size (Store.deref h (Sentence.cells self))))
   then r = Sentence.cells self ∧ h' = h
        ∧ Store.deref h' r = Store.deref h (Sentence.cells self)
   else (length h ≤ r)%nat ∧ r ≠ Sentence.cells self
        ∧ Store.deref h' r = ∅)
  ∧ Sentence.view h' self = Sentence.view h self
  ∧ ∀ l, (l < length h)%nat → Store.deref h' l = Store.deref h l.
Proof.
  intros Hl. unfold Sentence.known_mines.
  destruct (Z.eqb_spec (Z.of_nat (size (Store.deref h (Sentence.cells self))))
              (Sentence.count self)) as [Heq|Hne];
    destruct (Z.gtb_spec (Sentence.count self) 0) as [Hgt|Hle]; simpl.
  1: { rewrite decide_True by lia. done. }
  all: rewrite decide_False by lia.
  all: unfold Sentence.view; rewrite deref_app_new.
  all: rewrite (deref_app_old _ _ _ Hl).
  all: repeat split; try done; try lia.
  all: intros l Hlt; by apply deref_app_old.
Qed.

Lemma known_mines_contract_witness :
  let self := corner_narrowed.1 in
  let h := corner_narrowed.2 in
  (Sentence.cells self < length h)%nat
  ∧ (Sentence.known_mines h self).1 = Sentence.cells self.
Proof.
  assert (Sentence.cells corner_narrowed.1 < length corner_narrowed.2)%nat
    as Hl by (vm_compute; lia).
  split; [exact Hl|].
  pose proof (known_mines_contract _ _ Hl) as H.
  destruct (Sentence.known_mines _ _) as [r h'].
  destruct H as [H _].
  rewrite decide_True in H by (vm_compute; split; reflexivity).
  apply H.
Defined.

(** ** make_random_move *)

(** C9: [make_random_move] never returns a cell of [mines] or of
    [moves_made]; it returns a cell of the board outside both whenever one
    exists; and it returns [None] exactly when every cell of the board is
    in [moves_made ∪ mines]. *)
Theorem make_random_move_contract (self : MinesweeperAI.t) :
  let height := MinesweeperAI.height self in
  let width := MinesweeperAI.width self in
  let taken := MinesweeperAI.moves_made self ∪ MinesweeperAI.mines self in
  let result := (MinesweeperAI.make_random_move self).1 in
  (∀ c, result = Some c →
        (c ∉ MinesweeperAI.mines self)
        ∧ (c ∉ MinesweeperAI.moves_made self)
        ∧ on_board height width c)
  ∧ ((∃ c, on_board height width c ∧ (c ∉ taken)) →
     ∃ c, result = Some c ∧ on_board height width c ∧ (c ∉ taken))
  ∧ (result = None ↔ ∀ c, on_board height width c → c ∈ taken).
Proof.
  intros height width taken result.
  assert (result = first_free height width (MinesweeperAI.moves_made self)
                              (MinesweeperAI.mines self)) as Hr
    by (unfold result; by rewrite make_random_move_spec).
  assert (∀ c, result = Some c → (c ∉ taken) ∧ on_board height width c)
    as HSome.
  { intros c Hc. rewrite Hr in Hc. apply head_filter_Some in Hc as [? ?].
    by rewrite <- elem_of_row_major. }
  assert (result = None ↔ ∀ c, on_board height width c → c ∈ taken)
    as HNone.
  { rewrite Hr. unfold first_free. rewrite head_filter_None.
    setoid_rewrite elem_of_row_major. split; intros H c Hc.
    - destruct (decide (c ∈ taken)); [done|]. by destruct (H c Hc).
    - intros Hn. by apply Hn, H. }
  split_and!.
  - intros c [Ht Hb]%HSome. unfold taken in Ht.
    apply not_elem_of_union in Ht as [? ?]. done.
  - intros (c & Hb & Ht). destruct result as [c'|] eqn:E.
    + exists c'. destruct (HSome c' eq_refl). done.
    + destruct Ht. by apply HNone.
  - exact HNone.
Qed.

(** C10: [make_random_move] draws nothing at random and changes nothing:
    its result is the first cell in row-major order (rows 0 .. height-1,
    within a row columns 0 .. width-1) that is not in
    [moves_made ∪ mines], [None] if there is none, a function of [height],
    [width], [moves_made] and [mines] alone; and the engine it leaves is
    the engine it was given. *)
Theorem make_random_move_first_free (self : MinesweeperAI.t) :
  MinesweeperAI.make_random_move self
  = (head (filter (fun c => c ∉ MinesweeperAI.moves_made self
                                ∪ MinesweeperAI.mines self)
             (row_major (MinesweeperAI.height self)
                        (MinesweeperAI.width self))),
     self).
Proof.
  unfold MinesweeperAI.make_random_move, row_major. f_equal.
  apply scan_rows_spec.
Qed.

(** ** add_knowledge: the new sentence *)

(** C6: the sentence that [add_knowledge cell count] appends (at the end of
    step 3, before the pass of step 4) has the given count, and its cells
    are exactly the cells of the board at Chebyshev distance 1 from [cell]
    that are not in [safes] at that point, that is, not in the old [safes]
    and not [cell] itself, which has just been put in [moves_made] and in
    [safes]; whether a cell is in [mines] plays no part. *)
Theorem new_sentence_neighbours (self : MinesweeperAI.t) (c : cell) (n : Z) :
  let self1 := MinesweeperAI.record_move self c in
  let self3 := MinesweeperAI.observe_cell self c n in
  MinesweeperAI.add_knowledge self c n
  = MinesweeperAI.derive (MinesweeperAI.closure_pass self3)
  ∧ MinesweeperAI.moves_made self3 = {[c]} ∪ MinesweeperAI.moves_made self
  ∧ MinesweeperAI.safes self3 = {[c]} ∪ MinesweeperAI.safes self
  ∧ MinesweeperAI.mines self3 = MinesweeperAI.mines self
  ∧ ∃ newSentence,
      MinesweeperAI.knowledge self3
      = MinesweeperAI.knowledge self1 ++ [newSentence]
      ∧ Sentence.count newSentence = n
      ∧ (c ∉ Store.deref (MinesweeperAI.heap self3)
               (Sentence.cells newSentence))
      ∧ ∀ e, e ∈ Store.deref (MinesweeperAI.heap self3)
                   (Sentence.cells newSentence)
             ↔ on_board (MinesweeperAI.height self)
                        (MinesweeperAI.width self) e
               ∧ chebyshev c e = 1
               ∧ (e ∉ MinesweeperAI.safes self) ∧ e ≠ c.
Proof.
  intros self1 self3.
  destruct (observe_cell_spec self c n)
    as (Hh & Hw & Hm & Hmi & Hs & Hs1 & Hk & Hheap).
  fold self1 self3 in Hh, Hw, Hm, Hmi, Hs, Hs1, Hk, Hheap.
  assert (MinesweeperAI.height self1 = MinesweeperAI.height self
          ∧ MinesweeperAI.width self1 = MinesweeperAI.width self)
    as [Hh1 Hw1].
  { unfold self1, MinesweeperAI.record_move, MinesweeperAI.mark_safe.
    by destruct (MinesweeperAI.for_each _ _ _). }
  set (new := length (MinesweeperAI.heap self1)) in *.
  assert (∀ e, e ∈ Store.deref (MinesweeperAI.heap self3) new
               ↔ on_board (MinesweeperAI.height self)
                          (MinesweeperAI.width self) e
                 ∧ chebyshev c e = 1
                 ∧ (e ∉ MinesweeperAI.safes self) ∧ e ≠ c) as Hcells.
  { intros e. rewrite Hheap. unfold new. rewrite deref_app_new.
    rewrite collect_neighbours_spec, Hh1, Hw1, Hs1.
    rewrite not_elem_of_union, not_elem_of_singleton. tauto. }
  split_and!; try done.
  exists (Sentence.mk new n). split_and!; try done.
  cbn [Sentence.cells]. rewrite Hcells. tauto.
Qed.

(** ** Soundness over a run of probes *)

(** C1: over every sequence of observations consistent with a fixed mine
    layout (no probed cell is a mine, no cell is probed twice, every count
    is the number of mines among the probed cell's neighbours on the
    board), after every [add_knowledge] call, that is, after every prefix
    of the sequence, each cell of the engine's [mines] is a mine of the
    layout and no cell of its [safes] is. *)
Theorem deduction_sound (game : Minesweeper.t) (obs : list (cell * Z))
    (k : nat) :
  consistent game obs →
  let self := run (engine_for game) (take k obs) in
  (∀ c, c ∈ MinesweeperAI.mines self → c ∈ Minesweeper.mines game)
  ∧ (∀ c, c ∈ MinesweeperAI.safes self → c ∉ Minesweeper.mines game).
Proof.
  intros Hobs self.
  destruct (run_inv game (take k obs) (consistent_take game obs k Hobs))
    as (_ & _ & [Hm Hs] & _).
  split; intros c Hc; [by apply Hm|]. intros HL. by apply (Hs c).
Qed.

(** C3: over every sequence of observations consistent with a fixed mine
    layout, after every [add_knowledge] call the engine's [safes] and
    [mines] have no cell in common. *)
Theorem safes_mines_disjoint (game : Minesweeper.t) (obs : list (cell * Z))
    (k : nat) :
  consistent game obs →
  let self := run (engine_for game) (take k obs) in
  MinesweeperAI.safes self ∩ MinesweeperAI.mines self = ∅.
Proof.
  intros Hobs self.
  destruct (run_inv game (take k obs) (consistent_take game obs k Hobs))
    as (_ & _ & [Hm Hs] & _).
  apply set_eq. intros c. rewrite elem_of_intersection. split.
  - intros [H1 H2]. destruct (Hs c H1). by apply Hm.
  - intros H. by apply not_elem_of_empty in H.
Qed.



Lemma deduction_sound_witness :
  consistent top_row_game top_row_probes
  ∧ let self := run (engine_for top_row_game) (take 3 top_row_probes) in
    (∀ c, c ∈ MinesweeperAI.mines self
          → c ∈ Minesweeper.mines top_row_game)
    ∧ (∀ c, c ∈ MinesweeperAI.safes self
            → c ∉ Minesweeper.mines top_row_game).
Proof.
  split; [exact top_row_consistent|].
  exact (deduction_sound top_row_game top_row_probes 3 top_row_consistent).
Defined.

Lemma safes_mines_disjoint_witness :
  consistent top_row_game top_row_probes
  ∧ let self := run (engine_for top_row_game) (take 2 top_row_probes) in
    MinesweeperAI.safes self ∩ MinesweeperAI.mines self = ∅.
Proof.
  split; [exact top_row_consistent|].
  exact (safes_mines_disjoint top_row_game top_row_probes 2
           top_row_consistent).
Defined.

(** ** add_knowledge: the single pass of step 4 *)

(** C2 fails on the code.  On a 1x4 board with its one mine at (0,0),
    after (0,1) was probed (count 1) and (0,3) is probed (count 0), the pass
    of step 4 visits the sentence ({(0,0),(0,2)}, 1) first and finds nothing,
    then marks (0,2) safe from the new sentence.  The first sentence is now
    ({(0,0)}, 1): its [known_mines] is {(0,0)}, and the pass is over with
    (0,0) not in [mines], where the whole call leaves it. *)
Theorem closure_pass_single :
  let game := Minesweeper.mk 1 4 {[ (0, 0) ]} in
  let before := run (engine_for game) [((0, 1), 1)] in
  let self := MinesweeperAI.closure_pass
                (MinesweeperAI.observe_cell before (0, 3) 0) in
  consistent game [((0, 1), 1); ((0, 3), 0)]
  ∧ MinesweeperAI.views self = [({[ (0, 0) ]}, 1); (∅, 0)]
  ∧ MinesweeperAI.mines self = ∅
  ∧ MinesweeperAI.mines (MinesweeperAI.add_knowledge before (0, 3) 0) = ∅
  ∧ ∃ sentence,
      MinesweeperAI.knowledge self !! 0%nat = Some sentence
      ∧ let '(r, h) :=
          Sentence.known_mines (MinesweeperAI.heap self) sentence in
        Store.deref h r = {[ (0, 0) ]}.
Proof.
  cbv zeta. split_and!.
  - split.
    + apply (bool_decide_unpack _). vm_compute. exact I.
    + repeat apply Forall_cons_2; try apply Forall_nil_2.
      all: split; [apply (bool_decide_unpack _); vm_compute; exact I
                  |vm_compute; reflexivity].
  - vm_compute. reflexivity.
  - vm_compute. reflexivity.
  - vm_compute. reflexivity.
  - eexists. split; [vm_compute; reflexivity|]. vm_compute. reflexivity.
Qed.

(** ** add_knowledge: step 5 *)
(** C5: in each [add_knowledge] call, step 5 appends to [knowledge] one
    sentence (B.cells − A.cells, B.count − A.count) for every ordered pair
    (A, B) of sentences present at the start of the step with
    A.cells ⊆ B.cells, A.cells ≠ B.cells, both cell sets non-empty and both
    counts positive, pair by pair in the order of the two loops, and
    nothing else; the sentences already present are left as they are, and
    the pairs are those of the knowledge base as it is when the step
    starts.  Counts are the non-negative integers of the data model. *)
Theorem subset_subtraction_rule (self : MinesweeperAI.t) (c : cell) (n : Z) :
  reachable self →
  let before := MinesweeperAI.closure_pass
                  (MinesweeperAI.observe_cell self c n) in
  let after := MinesweeperAI.add_knowledge self c n in
  Forall (fun v => 0 <= v.2) (MinesweeperAI.views before) →
  ∃ appended,
    MinesweeperAI.knowledge after
    = MinesweeperAI.knowledge before ++ appended
    ∧ map (Sentence.view (MinesweeperAI.heap after))
          (MinesweeperAI.knowledge before)
      = MinesweeperAI.views before
    ∧ map (Sentence.view (MinesweeperAI.heap after)) appended
      = subset_subtraction (MinesweeperAI.views before).
Proof.
  intros Hr before after Hpos.
  pose proof (wf_before_derive self c n Hr) as Hwf. fold before in Hwf.
  destruct (derive_spec before Hwf) as (_ & _ & _ & Hk & Hh & Hv).
  exists (allocated (MinesweeperAI.heap before)
            (infer_views (MinesweeperAI.views before))).
  split; [exact Hk|].
  unfold MinesweeperAI.views at 1 in Hv. rewrite Hk, map_app in Hv.
  apply app_inj_1 in Hv as [Hv1 Hv2];
    [|unfold MinesweeperAI.views; by rewrite !length_map].
  split; [exact Hv1|]. etrans; [exact Hv2|]. by apply infer_views_subtraction.
Qed.



Lemma subset_subtraction_rule_witness :
  let before := MinesweeperAI.closure_pass
                  (MinesweeperAI.observe_cell far_corner_start (3, 0) 0) in
  let after := MinesweeperAI.add_knowledge far_corner_start (3, 0) 0 in
  reachable far_corner_start
  ∧ Forall (fun v => 0 <= v.2) (MinesweeperAI.views before)
  ∧ ∃ appended,
      MinesweeperAI.knowledge after
      = MinesweeperAI.knowledge before ++ appended
      ∧ map (Sentence.view (MinesweeperAI.heap after))
            (MinesweeperAI.knowledge before)
        = MinesweeperAI.views before
      ∧ map (Sentence.view (MinesweeperAI.heap after)) appended
        = subset_subtraction (MinesweeperAI.views before).
Proof.
  assert (reachable far_corner_start) as Hr by apply reachable_run.
  assert (Forall (fun v => 0 <= v.2)
            (MinesweeperAI.views
               (MinesweeperAI.closure_pass
                  (MinesweeperAI.observe_cell far_corner_start (3, 0) 0))))
    as Hpos by (apply (bool_decide_unpack _); vm_compute; exact I).
  split; [exact Hr|]. split; [exact Hpos|].
  exact (subset_subtraction_rule far_corner_start (3, 0) 0 Hr Hpos).
Defined.

(** C7, as stated, fails: step 5 compares nothing with what [knowledge]
    already holds.  On the 4x3 board, the third call finds the pair
    ({(1,0),(1,1)}, 1) ⊆ ({(0,2),(1,0),(1,1),(1,2)}, 2) as the second call
    did, and appends ({(0,2),(1,2)}, 1) a second time: entries 2 and 4 of
    [knowledge] are equal by value, entry 4 being one of those step 5 has
    just appended to the 4 that were there. *)
Lemma derive_appends_duplicate :
  let before := MinesweeperAI.closure_pass
                  (MinesweeperAI.observe_cell far_corner_start (3, 0) 0) in
  let after := MinesweeperAI.add_knowledge far_corner_start (3, 0) 0 in
  consistent far_corner_game [((0, 0), 1); ((0, 1), 2); ((3, 0), 0)]
  ∧ length (MinesweeperAI.knowledge before) = 4%nat
  ∧ ∃ old new,
      MinesweeperAI.knowledge after !! 2%nat = Some old
      ∧ MinesweeperAI.knowledge after !! 4%nat = Some new
      ∧ Sentence.eq (MinesweeperAI.heap after) old new = true
      ∧ Sentence.view (MinesweeperAI.heap after) new
        = ({[ (0, 2); (1, 2) ]}, 1).
Proof.
  cbv zeta. split_and!.
  - split.
    + apply (bool_decide_unpack _). vm_compute. exact I.
    + repeat apply Forall_cons_2; try apply Forall_nil_2.
      all: split; [apply (bool_decide_unpack _); vm_compute; exact I
                  |vm_compute; reflexivity].
  - vm_compute. reflexivity.
  - do 2 eexists. split_and!; vm_compute; reflexivity.
Qed.

(** C7 (amended): step 5 has no duplicate guard.  In every [add_knowledge]
    call it appends one sentence for every ordered pair that passes the
    tests of its loop body, whatever [knowledge] already holds, so
    [knowledge] grows by exactly the number of such pairs and keeps what it
    had; an appended sentence differs in its cell set from both sentences
    of the pair it comes from. *)
Theorem derive_appends_every_pair (self : MinesweeperAI.t) (c : cell)
    (n : Z) :
  reachable self →
  let before := MinesweeperAI.closure_pass
                  (MinesweeperAI.observe_cell self c n) in
  let after := MinesweeperAI.add_knowledge self c n in
  MinesweeperAI.views after
  = MinesweeperAI.views before ++ infer_views (MinesweeperAI.views before)
  ∧ length (MinesweeperAI.knowledge after)
    = (length (MinesweeperAI.knowledge before)
       + length (infer_views (MinesweeperAI.views before)))%nat
  ∧ ∀ a b d, d ∈ infer_view a b → d.1 ≠ a.1 ∧ d.1 ≠ b.1.
Proof.
  intros Hr before after.
  pose proof (wf_before_derive self c n Hr) as Hwf. fold before in Hwf.
  destruct (derive_spec before Hwf) as (_ & _ & _ & Hk & Hh & Hv).
  split; [exact Hv|]. split; [|apply infer_view_differs].
  transitivity (length (MinesweeperAI.views after));
    [unfold MinesweeperAI.views; by rewrite length_map|].
  transitivity (length (MinesweeperAI.views before
                        ++ infer_views (MinesweeperAI.views before)));
    [f_equal; exact Hv|].
  rewrite length_app. unfold MinesweeperAI.views at 1.
  by rewrite length_map.
Qed.

Lemma derive_appends_every_pair_witness :
  let before := MinesweeperAI.closure_pass
                  (MinesweeperAI.observe_cell far_corner_start (3, 0) 0) in
  let after := MinesweeperAI.add_knowledge far_corner_start (3, 0) 0 in
  reachable far_corner_start
  ∧ MinesweeperAI.views after
    = MinesweeperAI.views before ++ infer_views (MinesweeperAI.views before)
  ∧ length (MinesweeperAI.knowledge after)
    = (length (MinesweeperAI.knowledge before)
       + length (infer_views (MinesweeperAI.views before)))%nat
  ∧ ∀ a b d, d ∈ infer_view a b → d.1 ≠ a.1 ∧ d.1 ≠ b.1.
Proof.
  assert (reachable far_corner_start) as Hr by apply reachable_run.
  split; [exact Hr|].
  exact (derive_appends_every_pair far_corner_start (3, 0) 0 Hr).
Defined.

(** * Further properties of the code *)

(** ** Sentence *)

(** X1: for a sentence whose set object is in the store, [known_safes]
    returns the sentence's own [cells] object when [count = 0], and
    otherwise a new object, different from every object of the store, that
    holds the empty set.  Either way the sentence and the sets of the store
    are as they were. *)
Theorem known_safes_contract h self :
  (Sentence.cells self < length h)%nat →
  let '(r, h') := Sentence.known_safes h self in
  (if decide (Sentence.count self = 0)
   then r = Sentence.cells self ∧ h' = h
   else (length h ≤ r)%nat ∧ r ≠ Sentence.cells self
        ∧ Store.deref h' r = ∅)
  ∧ Sentence.view h' self = Sentence.view h self
  ∧ ∀ l, (l < length h)%nat → Store.deref h' l = Store.deref h l.
Proof.
  intros Hl. unfold Sentence.known_safes.
  destruct (Z.eqb_spec (Sentence.count self) 0) as [Heq|Hne]; cbn.
  - rewrite decide_True by done. done.
  - rewrite decide_False by done. unfold Sentence.view.
    rewrite deref_app_new, (deref_app_old _ _ _ Hl).
    repeat split; try done; try lia.
    intros l Hlt. by apply deref_app_old.
Qed.

Lemma known_safes_contract_witness :
  let self := lone_cell_sentence.1 in
  let h := lone_cell_sentence.2 in
  (Sentence.cells self < length h)%nat
  ∧ (Sentence.known_safes h self).1 = Sentence.cells self.
Proof.
  assert (Sentence.cells lone_cell_sentence.1
          < length lone_cell_sentence.2)%nat as Hl by (vm_compute; lia).
  split; [exact Hl|].
  pose proof (known_safes_contract _ _ Hl) as H.
  destruct (Sentence.known_safes _ _) as [r h'].
  destruct H as [H _]. rewrite decide_True in H by reflexivity. apply H.
Defined.

(** X2: [Sentence.mark_mine] and [Sentence.mark_safe] remove exactly the
    given cell from the sentence and nothing else; [mark_mine] leaves a
    count that is not negative when it removes a cell; and a second call
    with the same cell changes nothing. *)
Theorem sentence_mark_removes_once h self c :
  let '(s1, h1) := Sentence.mark_mine h self c in
  let '(s2, h2) := Sentence.mark_safe h self c in
  Store.deref h1 (Sentence.cells s1)
  = Store.deref h (Sentence.cells self) ∖ {[c]}
  ∧ Store.deref h2 (Sentence.cells s2)
    = Store.deref h (Sentence.cells self) ∖ {[c]}
  ∧ (c ∈ Store.deref h (Sentence.cells self) → 0 <= Sentence.count s1)
  ∧ Sentence.count s2 = Sentence.count self
  ∧ Sentence.mark_mine h1 s1 c = (s1, h1)
  ∧ Sentence.mark_safe h2 s2 c = (s2, h2).
Proof.
  pose proof (mark_mine_view h self c) as Hv1.
  pose proof (mark_safe_view h self c) as Hv2.
  destruct (Sentence.mark_mine h self c) as [s1 h1].
  destruct (Sentence.mark_safe h self c) as [s2 h2].
  cbn [fst snd] in Hv1, Hv2. unfold Sentence.view in Hv1, Hv2.
  unfold narrow_mine, narrow_safe in Hv1, Hv2. cbn [fst snd] in Hv1, Hv2.
  assert ((c ∉ Store.deref h1 (Sentence.cells s1))
          ∧ (c ∉ Store.deref h2 (Sentence.cells s2))) as [Hn1 Hn2].
  { destruct (decide (c ∈ Store.deref h (Sentence.cells self)));
      injection Hv1 as -> _; injection Hv2 as -> _; set_solver. }
  split_and!.
  - destruct (decide (c ∈ _)); injection Hv1 as -> _; set_solver.
  - destruct (decide (c ∈ _)); injection Hv2 as -> _; set_solver.
  - intros Hc. rewrite decide_True in Hv1 by done. injection Hv1 as _ ->.
    destruct (Z.gtb_spec (Sentence.count self) 0); lia.
  - destruct (decide (c ∈ _)); by injection Hv2 as _ ->.
  - rewrite mark_mine_unfold. by rewrite decide_False.
  - rewrite mark_safe_unfold. by rewrite decide_False.
Qed.

Lemma narrow_all_view h self ops :
  Sentence.view (narrow_all h self ops).2 (narrow_all h self ops).1
  = foldl (fun v op => match op with
                       | AsMine c => narrow_mine c v
                       | AsSafe c => narrow_safe c v
                       end) (Sentence.view h self) ops.
Proof.
  revert h self. induction ops as [|op rest IH]; intros h self; [done|].
  cbn [narrow_all foldl]. pose proof (narrow_view h self op) as Hv.
  destruct (narrow h self op) as [self' h']. cbn [fst snd] in Hv.
  by rewrite IH, Hv.
Qed.

Lemma holds_fits L v : holds L v → 0 <= v.2 ∧ fits v.
Proof.
  unfold holds, fits. intros ->. split; [lia|].
  assert (size (v.1 ∩ L) ≤ size v.1)%nat by (apply subseteq_size; set_solver).
  lia.
Qed.

(** X3: a sentence that is true of a mine layout (its count is the number
    of its cells that are mines) stays true under any sequence of
    [mark_mine] calls on mines and [mark_safe] calls on cells that are not
    mines, and so keeps [0 <= count <= |cells|]. *)
Theorem truthful_narrowing_keeps_truth L h self ops :
  holds L (Sentence.view h self) →
  Forall (truthful L) ops →
  let v := Sentence.view (narrow_all h self ops).2
                         (narrow_all h self ops).1 in
  holds L v ∧ 0 <= v.2 <= Z.of_nat (size v.1).
Proof.
  intros Hh Hops v.
  assert (holds L v) as Hv.
  { unfold v. rewrite narrow_all_view. revert Hh.
    generalize (Sentence.view h self).
    induction Hops as [|op rest Hop _ IH]; intros v0 Hv0; [done|].
    cbn [foldl]. apply IH. destruct op as [c|c]; cbn in Hop.
    - by apply holds_narrow_mine.
    - by apply holds_narrow_safe. }
  split; [done|]. by apply holds_fits in Hv as [? ?].
Qed.

Lemma truthful_narrowing_keeps_truth_witness :
  let L : cellset := {[ (0, 1); (1, 1) ]} in
  let self := corner_sentence.1 in
  let h := corner_sentence.2 in
  let ops := [AsMine (0, 1); AsSafe (0, 0); AsSafe (7, 7)] in
  holds L (Sentence.view h self)
  ∧ Forall (truthful L) ops
  ∧ let v := Sentence.view (narrow_all h self ops).2
                           (narrow_all h self ops).1 in
    holds L v ∧ 0 <= v.2 <= Z.of_nat (size v.1).
Proof.
  assert (holds {[ (0, 1); (1, 1) ]}
            (Sentence.view corner_sentence.2 corner_sentence.1)) as Hh
    by (vm_compute; reflexivity).
  assert (Forall (truthful {[ (0, 1); (1, 1) ]})
            [AsMine (0, 1); AsSafe (0, 0); AsSafe (7, 7)]) as Hops.
  { repeat apply Forall_cons_2; try apply Forall_nil_2.
    all: cbn [truthful]; apply (bool_decide_unpack _); vm_compute; exact I. }
  split; [exact Hh|]. split; [exact Hops|].
  exact (truthful_narrowing_keeps_truth _ _ _ _ Hh Hops).
Defined.

(** X4: what one sentence concludes is right: if the sentence is true of a
    mine layout, every cell of the set [known_mines] returns is a mine and
    no cell of the set [known_safes] returns is. *)
Theorem sentence_conclusions_sound L h self :
  holds L (Sentence.view h self) →
  let '(rm, hm) := Sentence.known_mines h self in
  let '(rs, hs) := Sentence.known_safes h self in
  Store.deref hm rm ⊆ L ∧ Store.deref hs rs ## L.
Proof.
  intros Hh. unfold Sentence.known_mines, Sentence.known_safes.
  destruct (_ && _) eqn:Hc;
    destruct (Z.eqb_spec (Sentence.count self) 0) as [Hz|Hz];
    cbn [Store.alloc]; rewrite ?deref_app_new; split.
  all: try apply empty_subseteq; try apply disjoint_empty_l.
  all: try (by apply (holds_no_mines _ _ Hh)).
  all: apply andb_true_iff in Hc as [Heq%Z.eqb_eq _].
  all: by apply (holds_all_mines _ _ Hh).
Qed.

Lemma sentence_conclusions_sound_witness :
  let L : cellset := {[ (0, 1); (1, 1) ]} in
  let self := corner_narrowed.1 in
  let h := corner_narrowed.2 in
  holds L (Sentence.view h self)
  ∧ Store.deref (Sentence.known_mines h self).2
                (Sentence.known_mines h self).1 ⊆ L.
Proof.
  assert (holds {[ (0, 1); (1, 1) ]}
            (Sentence.view corner_narrowed.2 corner_narrowed.1)) as Hh
    by (vm_compute; reflexivity).
  split; [exact Hh|].
  pose proof (sentence_conclusions_sound _ _ _ Hh) as H.
  destruct (Sentence.known_mines _ _) as [rm hm].
  destruct (Sentence.known_safes _ _) as [rs hs]. apply H.
Defined.

(** ** MinesweeperAI.mark_mine and MinesweeperAI.mark_safe *)

Section engine_marks.
Import MinesweeperAI.
Implicit Types (self : MinesweeperAI.t) (c : cell) (v : cellset * Z).

Lemma narrow_mine_idemp c v :
  narrow_mine c (narrow_mine c v) = narrow_mine c v.
Proof.
  unfold narrow_mine. destruct v as [X n]. cbn [fst snd].
  destruct (decide (c ∈ X)) as [Hc|Hc]; cbn [fst snd].
  - by rewrite decide_False by set_solver.
  - by rewrite decide_False by done.
Qed.

Lemma narrow_safe_idemp c v :
  narrow_safe c (narrow_safe c v) = narrow_safe c v.
Proof.
  unfold narrow_safe. destruct v as [X n]. cbn [fst snd].
  destruct (decide (c ∈ X)) as [Hc|Hc]; cbn [fst snd].
  - by rewrite decide_False by set_solver.
  - by rewrite decide_False by done.
Qed.

Lemma narrow_mine_out c v : c ∉ (narrow_mine c v).1.
Proof. unfold narrow_mine. case_decide; cbn [fst]; set_solver. Qed.

Lemma narrow_safe_out c v : c ∉ (narrow_safe c v).1.
Proof. unfold narrow_safe. case_decide; cbn [fst]; set_solver. Qed.

Lemma narrow_mine_safe_comm c1 c2 v :
  c1 ≠ c2 →
  narrow_safe c2 (narrow_mine c1 v) = narrow_mine c1 (narrow_safe c2 v).
Proof.
  intros Hne. unfold narrow_mine, narrow_safe. destruct v as [X n].
  cbn [fst snd].
  destruct (decide (c1 ∈ X)) as [H1|H1], (decide (c2 ∈ X)) as [H2|H2];
    cbn [fst snd].
  - rewrite decide_True by set_solver. rewrite decide_True by set_solver.
    f_equal. set_solver.
  - rewrite decide_False by set_solver. by rewrite decide_True by done.
  - rewrite decide_True by done. by rewrite decide_False by set_solver.
  - rewrite decide_False by done. by rewrite decide_False by done.
Qed.

Lemma mark_mine_idemp self c :
  wf self → mark_mine (mark_mine self c) c = mark_mine self c.
Proof.
  intros Hwf. pose proof (wf_mark_mine self c Hwf) as Hwf1.
  destruct (mark_mine_spec self c (proj1 Hwf))
    as (Hb1 & Hm1 & Hs1 & (Hl1 & Hn1 & Hf1 & _) & Hv1).
  destruct (mark_mine_spec _ c (proj1 Hwf1))
    as (Hb2 & Hm2 & Hs2 & (Hl2 & Hn2 & Hf2 & _) & Hv2).
  apply state_ext; try done.
  - rewrite Hm2, Hm1. set_solver.
  - rewrite Hv2, Hv1, map_map. apply map_ext. intros v.
    apply narrow_mine_idemp.
Qed.

Lemma mark_safe_idemp self c :
  wf self → mark_safe (mark_safe self c) c = mark_safe self c.
Proof.
  intros Hwf. pose proof (wf_mark_safe self c Hwf) as Hwf1.
  destruct (mark_safe_spec self c (proj1 Hwf))
    as (Hb1 & Hm1 & Hs1 & (Hl1 & Hn1 & Hf1 & _) & Hv1).
  destruct (mark_safe_spec _ c (proj1 Hwf1))
    as (Hb2 & Hm2 & Hs2 & (Hl2 & Hn2 & Hf2 & _) & Hv2).
  apply state_ext; try done.
  - rewrite Hs2, Hs1. set_solver.
  - rewrite Hv2, Hv1, map_map. apply map_ext. intros v.
    apply narrow_safe_idemp.
Qed.

Lemma mark_mine_safe_comm self c1 c2 :
  wf self → c1 ≠ c2 →
  mark_safe (mark_mine self c1) c2 = mark_mine (mark_safe self c2) c1.
Proof.
  intros Hwf Hne.
  pose proof (wf_mark_mine self c1 Hwf) as Hwf1.
  pose proof (wf_mark_safe self c2 Hwf) as Hwf2.
  destruct (mark_mine_spec self c1 (proj1 Hwf))
    as (Hb1 & Hm1 & Hs1 & (Hl1 & Hn1 & Hf1 & _) & Hv1).
  destruct (mark_safe_spec self c2 (proj1 Hwf))
    as (Hb2 & Hm2 & Hs2 & (Hl2 & Hn2 & Hf2 & _) & Hv2).
  destruct (mark_safe_spec _ c2 (proj1 Hwf1))
    as (Hb12 & Hm12 & Hs12 & (Hl12 & Hn12 & Hf12 & _) & Hv12).
  destruct (mark_mine_spec _ c1 (proj1 Hwf2))
    as (Hb21 & Hm21 & Hs21 & (Hl21 & Hn21 & Hf21 & _) & Hv21).
  apply state_ext.
  - destruct Hb1 as (? & ? & ?), Hb2 as (? & ? & ?), Hb12 as (? & ? & ?),
      Hb21 as (? & ? & ?). unfold same_board. split_and!; congruence.
  - congruence.
  - congruence.
  - congruence.
  - rewrite Hv12, Hv21, Hv1, Hv2, !map_map. apply map_ext.
    intros v. by apply narrow_mine_safe_comm.
  - congruence.
  - intros l Hl. rewrite Hl21, Hl2 in Hl.
    rewrite Hf12 by (by rewrite Hl1). rewrite Hf1 by done.
    rewrite Hf21 by (by rewrite Hl2). by rewrite Hf2.
Qed.

End engine_marks.

(** X5: in an engine whose sentences do not share set objects (every
    engine the class builds), [mark_mine cell] puts the cell in [mines]
    and leaves it in no sentence, [mark_safe cell] does the same with
    [safes], and calling either a second time with the same cell gives the
    state the first call gave. *)
Theorem engine_mark_strips_and_is_idempotent (self : MinesweeperAI.t)
    (c : cell) :
  wf self →
  (c ∈ MinesweeperAI.mines (MinesweeperAI.mark_mine self c)
   ∧ Forall (fun v => c ∉ v.1)
            (MinesweeperAI.views (MinesweeperAI.mark_mine self c))
   ∧ MinesweeperAI.mark_mine (MinesweeperAI.mark_mine self c) c
     = MinesweeperAI.mark_mine self c)
  ∧ (c ∈ MinesweeperAI.safes (MinesweeperAI.mark_safe self c)
     ∧ Forall (fun v => c ∉ v.1)
              (MinesweeperAI.views (MinesweeperAI.mark_safe self c))
     ∧ MinesweeperAI.mark_safe (MinesweeperAI.mark_safe self c) c
       = MinesweeperAI.mark_safe self c).
Proof.
  intros Hwf.
  destruct (mark_mine_spec self c (proj1 Hwf)) as (_ & Hm1 & _ & _ & Hv1).
  destruct (mark_safe_spec self c (proj1 Hwf)) as (_ & _ & Hs2 & _ & Hv2).
  split; split_and!.
  - rewrite Hm1. set_solver.
  - rewrite Hv1. apply Forall_map, Forall_forall. intros v _.
    apply narrow_mine_out.
  - by apply mark_mine_idemp.
  - rewrite Hs2. set_solver.
  - rewrite Hv2. apply Forall_map, Forall_forall. intros v _.
    apply narrow_safe_out.
  - by apply mark_safe_idemp.
Qed.

Lemma far_corner_start_wf : wf far_corner_start.
Proof. apply reachable_wf, reachable_run. Defined.

Lemma engine_mark_strips_and_is_idempotent_witness :
  wf far_corner_start
  ∧ MinesweeperAI.mark_mine (MinesweeperAI.mark_mine far_corner_start (1, 0))
                            (1, 0)
    = MinesweeperAI.mark_mine far_corner_start (1, 0).
Proof.
  split; [exact far_corner_start_wf|].
  exact (proj2 (proj2 (proj1
           (engine_mark_strips_and_is_idempotent far_corner_start (1, 0)
              far_corner_start_wf)))).
Defined.

(** X6: in such an engine the order of two marking calls does not matter:
    two [mark_mine] calls commute, two [mark_safe] calls commute, and a
    [mark_mine] commutes with a [mark_safe] of a different cell. *)
Theorem engine_marks_commute (self : MinesweeperAI.t) (c1 c2 : cell) :
  wf self →
  MinesweeperAI.mark_mine (MinesweeperAI.mark_mine self c1) c2
  = MinesweeperAI.mark_mine (MinesweeperAI.mark_mine self c2) c1
  ∧ MinesweeperAI.mark_safe (MinesweeperAI.mark_safe self c1) c2
    = MinesweeperAI.mark_safe (MinesweeperAI.mark_safe self c2) c1
  ∧ (c1 ≠ c2 →
     MinesweeperAI.mark_safe (MinesweeperAI.mark_mine self c1) c2
     = MinesweeperAI.mark_mine (MinesweeperAI.mark_safe self c2) c1).
Proof.
  intros Hwf. split_and!.
  - by apply mark_mine_comm.
  - by apply mark_safe_comm.
  - by apply mark_mine_safe_comm.
Qed.

Lemma engine_marks_commute_witness :
  wf far_corner_start
  ∧ MinesweeperAI.mark_mine (MinesweeperAI.mark_mine far_corner_start (1, 0))
                            (1, 2)
    = MinesweeperAI.mark_mine (MinesweeperAI.mark_mine far_corner_start (1, 2))
                              (1, 0).
Proof.
  split; [exact far_corner_start_wf|].
  exact (proj1 (engine_marks_commute far_corner_start (1, 0) (1, 2)
                  far_corner_start_wf)).
Defined.

(** ** add_knowledge, step 4: iteration order *)

Lemma closure_pass_any_order_witness :
  (∀ X : cellset, reverse (elements X) ≡ₚ elements X)
  ∧ wf far_corner_start
  ∧ MinesweeperAI.closure_pass_in (fun X => reverse (elements X))
      far_corner_start
    = MinesweeperAI.closure_pass far_corner_start.
Proof.
  assert (∀ X : cellset, reverse (elements X) ≡ₚ elements X) as Ho
    by (intros X; apply reverse_Permutation).
  split; [exact Ho|]. split; [exact far_corner_start_wf|].
  exact (closure_pass_any_order (fun X => reverse (elements X))
           far_corner_start Ho far_corner_start_wf).
Defined.

(** ** add_knowledge: what a call keeps and what it adds *)

Section progress.
Import MinesweeperAI.
Implicit Types (h : Store.t) (self : MinesweeperAI.t) (c : cell).

Lemma progress_refl self : progress self self.
Proof.
  unfold progress. split_and!; try done.
  - intros i s Hs. by exists s.
  - intros l _. split; [done|]. set_solver.
Qed.

Lemma progress_trans self1 self2 self3 :
  progress self1 self2 → progress self2 self3 → progress self1 self3.
Proof.
  intros (Hm & Hs & Hi & Hn & Hd) (Hm' & Hs' & Hi' & Hn' & Hd').
  unfold progress. split_and!.
  - by etrans.
  - by etrans.
  - intros i s Hl. destruct (Hi i s Hl) as (s' & Hl' & Hc & Hz).
    destruct (Hi' i s' Hl') as (s'' & Hl'' & Hc' & Hz').
    exists s''. split_and!; [done|congruence|auto].
  - lia.
  - intros l Hl. destruct (Hd l Hl) as [H1 H2].
    destruct (Hd' l ltac:(lia)) as [H1' H2']. split; [by etrans|].
    set_solver.
Qed.

Lemma for_each_lookup body ks h i s :
  ks !! i = Some s → ∃ h0, (for_each body ks h).1 !! i = Some (body h0 s).1.
Proof.
  revert h i. induction ks as [|s0 ks IH]; intros h i Hi; [done|].
  cbn [for_each]. destruct (body h s0) as [s0' h1] eqn:E.
  specialize (IH h1). destruct (for_each body ks h1) as [ks' h2].
  cbn [fst] in *. destruct i as [|i]; cbn in Hi |- *.
  - injection Hi as <-. exists h. by rewrite E.
  - by apply IH.
Qed.

Lemma for_each_subseteq body ks h l :
  (∀ h s l, Store.deref (body h s).2 l ⊆ Store.deref h l) →
  Store.deref (for_each body ks h).2 l ⊆ Store.deref h l.
Proof.
  intros Hbody. revert h. induction ks as [|s ks IH]; intros h; [done|].
  cbn [for_each]. specialize (Hbody h s l).
  destruct (body h s) as [s' h1]. specialize (IH h1).
  destruct (for_each body ks h1) as [ks' h2]. cbn [snd] in *. by etrans.
Qed.

Lemma for_each_store_length body ks h :
  (∀ h s, length (body h s).2 = length h) →
  length (for_each body ks h).2 = length h.
Proof.
  intros Hbody. revert h. induction ks as [|s ks IH]; intros h; [done|].
  cbn [for_each]. specialize (Hbody h s).
  destruct (body h s) as [s' h1]. specialize (IH h1).
  destruct (for_each body ks h1) as [ks' h2]. cbn [snd] in *. congruence.
Qed.

Lemma progress_mark_mine self c : progress self (mark_mine self c).
Proof.
  unfold progress, mark_mine.
  pose proof (fun i s => for_each_lookup
                (fun h s => Sentence.mark_mine h s c)
                (knowledge self) (heap self) i s) as Hlook.
  pose proof (fun l => for_each_subseteq
                (fun h s => Sentence.mark_mine h s c)
                (knowledge self) (heap self) l
                (fun h s => proj1 (proj2 (proj2 (proj2
                                (mark_mine_local c h s)))))) as Hsub.
  pose proof (fun l => for_each_removes c
                (fun h s => Sentence.mark_mine h s c)
                (knowledge self) (heap self) l (mark_mine_removes c)) as Hrem.
  pose proof (for_each_store_length (fun h s => Sentence.mark_mine h s c)
                (knowledge self) (heap self)
                (fun h s => proj1 (proj2 (mark_mine_local c h s)))) as Hn.
  destruct (for_each _ _ _) as [ks h]. cbn [fst snd] in *.
  cbn [height width moves_made mines safes knowledge heap].
  split_and!; try done.
  - set_solver.
  - intros i s Hi. destruct (Hlook i s Hi) as [h0 Hl].
    eexists. split; [exact Hl|]. rewrite mark_mine_unfold.
    case_decide; cbn [fst Sentence.cells Sentence.count];
      [|done]. split; [done|]. by intros ->.
  - lia.
  - intros l _. split; [apply Hsub|]. specialize (Hrem l).
    intros x Hx. destruct (decide (x = c)) as [->|Hne]; set_solver.
Qed.

Lemma progress_mark_safe self c : progress self (mark_safe self c).
Proof.
  unfold progress, mark_safe.
  pose proof (fun i s => for_each_lookup
                (fun h s => Sentence.mark_safe h s c)
                (knowledge self) (heap self) i s) as Hlook.
  pose proof (fun l => for_each_subseteq
                (fun h s => Sentence.mark_safe h s c)
                (knowledge self) (heap self) l
                (fun h s => proj1 (proj2 (proj2 (proj2
                                (mark_safe_local c h s)))))) as Hsub.
  pose proof (fun l => for_each_removes c
                (fun h s => Sentence.mark_safe h s c)
                (knowledge self) (heap self) l (mark_safe_removes c)) as Hrem.
  pose proof (for_each_store_length (fun h s => Sentence.mark_safe h s c)
                (knowledge self) (heap self)
                (fun h s => proj1 (proj2 (mark_safe_local c h s)))) as Hn.
  destruct (for_each _ _ _) as [ks h]. cbn [fst snd] in *.
  cbn [height width moves_made mines safes knowledge heap].
  split_and!; try done.
  - set_solver.
  - intros i s Hi. destruct (Hlook i s Hi) as [h0 Hl].
    eexists. split; [exact Hl|]. rewrite mark_safe_unfold.
    by case_decide.
  - lia.
  - intros l _. split; [apply Hsub|]. specialize (Hrem l).
    intros x Hx. destruct (decide (x = c)) as [->|Hne]; set_solver.
Qed.

Lemma progress_with_heap_app self h' :
  progress self (with_heap self (heap self ++ h')).
Proof.
  unfold progress. cbn [with_heap mines safes knowledge heap].
  split_and!; try done.
  - intros i s Hi. by exists s.
  - rewrite length_app. lia.
  - intros l Hl. rewrite deref_app_old by done. split; [done|]. set_solver.
Qed.

Lemma progress_mark_mines_in temp m self :
  progress self (mark_mines_in self temp m).
Proof.
  unfold mark_mines_in. revert self.
  induction temp as [|c rest IH]; intros self; [apply progress_refl|].
  cbn [foldl]. eapply progress_trans; [|apply IH].
  case_decide; [apply progress_mark_mine|apply progress_refl].
Qed.

Lemma progress_mark_safes_in temp m self :
  progress self (mark_safes_in self temp m).
Proof.
  unfold mark_safes_in. revert self.
  induction temp as [|c rest IH]; intros self; [apply progress_refl|].
  cbn [foldl]. eapply progress_trans; [|apply IH].
  case_decide; [apply progress_mark_safe|apply progress_refl].
Qed.

Lemma progress_known_mines self s :
  progress self (with_heap self (Sentence.known_mines (heap self) s).2).
Proof.
  unfold Sentence.known_mines. destruct (_ && _); cbn [snd Store.alloc].
  - rewrite with_heap_same. apply progress_refl.
  - apply progress_with_heap_app.
Qed.

Lemma progress_known_safes self s :
  progress self (with_heap self (Sentence.known_safes (heap self) s).2).
Proof.
  unfold Sentence.known_safes. destruct (_ =? _); cbn [snd Store.alloc].
  - rewrite with_heap_same. apply progress_refl.
  - apply progress_with_heap_app.
Qed.

Lemma progress_conclude order self i : progress self (conclude_in order self i).
Proof.
  unfold conclude_in.
  destruct (knowledge self !! i) as [s|]; [|apply progress_refl].
  pose proof (progress_known_mines self s) as H1.
  destruct (Sentence.known_mines (heap self) s) as [m h1]. cbn [snd] in H1.
  eapply progress_trans; [exact H1|].
  set (self2 := mark_mines_in _ _ _).
  apply (progress_trans _ self2); [apply progress_mark_mines_in|].
  destruct (knowledge self2 !! i) as [s'|]; [|apply progress_refl].
  pose proof (progress_known_safes self2 s') as H3.
  destruct (Sentence.known_safes (heap self2) s') as [sl h3].
  cbn [snd] in H3.
  eapply progress_trans; [exact H3|apply progress_mark_safes_in].
Qed.

Lemma progress_foldl_conclude order idx self :
  progress self (foldl (conclude_in order) self idx).
Proof.
  revert self. induction idx as [|i idx IH]; intros self;
    [apply progress_refl|].
  cbn [foldl]. eapply progress_trans; [apply progress_conclude|apply IH].
Qed.

Lemma progress_closure_pass self : progress self (closure_pass self).
Proof. apply progress_foldl_conclude. Qed.

Lemma derive_same_sets self :
  mines (derive self) = mines self ∧ safes (derive self) = safes self.
Proof. unfold derive. by destruct (infer_all _ _). Qed.

End progress.

Lemma add_knowledge_safes_grow (self : MinesweeperAI.t) c n :
  {[c]} ∪ MinesweeperAI.safes self
  ⊆ MinesweeperAI.safes (MinesweeperAI.add_knowledge self c n).
Proof.
  unfold MinesweeperAI.add_knowledge. rewrite (proj2 (derive_same_sets _)).
  destruct (progress_closure_pass (MinesweeperAI.observe_cell self c n))
    as (_ & Hs & _).
  destruct (observe_cell_spec self c n) as (_ & _ & _ & _ & Hs3 & _).
  by rewrite <- Hs3.
Qed.

Lemma add_knowledge_mines_grow (self : MinesweeperAI.t) c n :
  MinesweeperAI.mines self
  ⊆ MinesweeperAI.mines (MinesweeperAI.add_knowledge self c n).
Proof.
  unfold MinesweeperAI.add_knowledge. rewrite (proj1 (derive_same_sets _)).
  destruct (progress_closure_pass (MinesweeperAI.observe_cell self c n))
    as (Hmi & _).
  destruct (observe_cell_spec self c n) as (_ & _ & _ & Hm3 & _).
  by rewrite <- Hm3.
Qed.

(** X8: [add_knowledge cell count] never takes anything back: the board
    size is unchanged, [moves_made] gains exactly [cell], [safes] keeps all
    it had and contains [cell], and [mines] keeps all it had.  This holds
    from any engine state and for any count. *)
Theorem add_knowledge_only_grows (self : MinesweeperAI.t) (c : cell) (n : Z) :
  let self' := MinesweeperAI.add_knowledge self c n in
  MinesweeperAI.height self' = MinesweeperAI.height self
  ∧ MinesweeperAI.width self' = MinesweeperAI.width self
  ∧ MinesweeperAI.moves_made self' = {[c]} ∪ MinesweeperAI.moves_made self
  ∧ {[c]} ∪ MinesweeperAI.safes self ⊆ MinesweeperAI.safes self'
  ∧ MinesweeperAI.mines self ⊆ MinesweeperAI.mines self'.
Proof.
  intros self'. destruct (add_knowledge_board self c n) as (Hh & Hw & Hm).
  split_and!; try done.
  - apply add_knowledge_safes_grow.
  - apply add_knowledge_mines_grow.
Qed.

(** X9: in every state the engine can reach, every cell that has been
    probed is known to be safe: [moves_made ⊆ safes]. *)
Theorem moves_made_are_safes (self : MinesweeperAI.t) :
  reachable self →
  MinesweeperAI.moves_made self ⊆ MinesweeperAI.safes self.
Proof.
  induction 1 as [height width|self c n _ IH]; [done|].
  destruct (add_knowledge_board self c n) as (_ & _ & Hm).
  rewrite Hm. etrans; [|apply add_knowledge_safes_grow]. set_solver.
Qed.

Lemma moves_made_are_safes_witness :
  reachable far_corner_start
  ∧ MinesweeperAI.moves_made far_corner_start
    ⊆ MinesweeperAI.safes far_corner_start.
Proof.
  assert (reachable far_corner_start) as Hr by apply reachable_run.
  split; [exact Hr|]. exact (moves_made_are_safes far_corner_start Hr).
Defined.

Section whole_call.
Import MinesweeperAI.
Implicit Types (h : Store.t) (self : MinesweeperAI.t) (c : cell).

Lemma mark_safe_spec_sets self c :
  mines (mark_safe self c) = mines self
  ∧ safes (mark_safe self c) = {[c]} ∪ safes self.
Proof. unfold mark_safe. by destruct (for_each _ _ _). Qed.

Lemma progress_observe_cell self c n : progress self (observe_cell self c n).
Proof.
  apply (progress_trans _ (record_move self c)).
  - exact (progress_mark_safe
             (mk (height self) (width self) ({[c]} ∪ moves_made self)
                 (mines self) (safes self) (knowledge self) (heap self)) c).
  - unfold observe_cell, append_sentence, progress. cbn.
    split_and!; try done.
    + intros i s Hi. exists s. split_and!; try done.
      by apply lookup_app_l_Some.
    + rewrite length_app. lia.
    + intros l Hl. rewrite deref_app_old by done. split; [done|].
      set_solver.
Qed.

Lemma infer_pair_extends first second acc :
  ∃ ext, (infer_pair first second acc).2 = acc.2 ++ ext.
Proof.
  unfold infer_pair. destruct acc as [temp h].
  repeat case_decide; try (exists []; by rewrite app_nil_r).
  destruct (_ || _); [exists []; by rewrite app_nil_r|].
  destruct (_ || _); [exists []; by rewrite app_nil_r|].
  cbn. by eexists.
Qed.

Lemma infer_all_extends ks h : ∃ ext, (infer_all ks h).2 = h ++ ext.
Proof.
  unfold infer_all.
  assert (∀ ks2 first acc, ∃ ext,
            (foldl (fun acc second => infer_pair first second acc) acc ks2).2
            = acc.2 ++ ext) as Hin.
  { induction ks2 as [|s ks2 IH]; intros first acc.
    - exists []. by rewrite app_nil_r.
    - cbn [foldl]. destruct (IH first (infer_pair first s acc)) as [e2 ->].
      destruct (infer_pair_extends first s acc) as [e1 ->].
      exists (e1 ++ e2). by rewrite app_assoc. }
  assert (∀ ks1 acc, ∃ ext,
            (foldl (fun acc first =>
                      foldl (fun acc second => infer_pair first second acc)
                            acc ks) acc ks1).2
            = acc.2 ++ ext) as Hout.
  { induction ks1 as [|s ks1 IH]; intros acc.
    - exists []. by rewrite app_nil_r.
    - cbn [foldl]. destruct (IH (foldl (fun acc second =>
                                          infer_pair s second acc) acc ks))
        as [e2 ->].
      destruct (Hin ks s acc) as [e1 ->].
      exists (e1 ++ e2). by rewrite app_assoc. }
  exact (Hout ks ([], h)).
Qed.

Lemma progress_derive self : progress self (derive self).
Proof.
  unfold derive. destruct (infer_all_extends (knowledge self) (heap self))
    as [ext Hext].
  destruct (infer_all _ _) as [temp h]. cbn [snd] in Hext. subst h.
  unfold progress. cbn. split_and!; try done.
  - intros i s Hi. exists s. split_and!; try done.
    by apply lookup_app_l_Some.
  - rewrite length_app. lia.
  - intros l Hl. rewrite deref_app_old by done. split; [done|]. set_solver.
Qed.

Lemma progress_add_knowledge self c n :
  progress self (add_knowledge self c n).
Proof.
  unfold add_knowledge.
  eapply progress_trans; [apply progress_observe_cell|].
  eapply progress_trans; [apply progress_closure_pass|apply progress_derive].
Qed.

Lemma deref_app_empty h l : Store.deref (h ++ [∅]) l = Store.deref h l.
Proof.
  destruct (decide (l < length h)%nat) as [Hl|Hl].
  - by apply deref_app_old.
  - rewrite (deref_dangling h) by lia.
    destruct (decide (l = length h)) as [->|Hne].
    + by rewrite deref_app_new.
    + apply deref_dangling. rewrite length_app. cbn. lia.
Qed.

Lemma mark_mines_in_nothing temp m self :
  Store.deref (heap self) m = ∅ → mark_mines_in self temp m = self.
Proof.
  intros Hm. unfold mark_mines_in. induction temp as [|c rest IH]; [done|].
  cbn [foldl]. rewrite decide_False; [done|]. rewrite Hm. set_solver.
Qed.

Lemma mark_safes_in_all temp m self c :
  (∀ x, x ∈ temp → x ∈ Store.deref (heap self) m ∨ x ∈ safes self) →
  c ∈ temp → c ∈ safes (mark_safes_in self temp m).
Proof.
  unfold mark_safes_in. revert self.
  induction temp as [|c0 rest IH]; intros self Hall Hc;
    [by apply elem_of_nil in Hc|].
  cbn [foldl].
  set (self' := if decide (c0 ∈ Store.deref (heap self) m)
                then mark_safe self c0 else self).
  assert (progress self self') as Hp.
  { unfold self'. case_decide; [apply progress_mark_safe|apply progress_refl]. }
  assert (c0 ∈ safes self') as Hc0.
  { unfold self'. case_decide.
    - destruct (mark_safe_spec_sets self c0) as [_ ->]. set_solver.
    - destruct (Hall c0 (list_elem_of_here _ _)); done. }
  apply elem_of_cons in Hc as [->|Hc].
  - destruct (progress_mark_safes_in rest m self') as (_ & Hs & _).
    by apply Hs.
  - apply IH; [|done]. intros x Hx.
    destruct (decide (x = c0)) as [->|Hne]; [by right|].
    destruct (Hall x (list_elem_of_further _ _ _ Hx)) as [Hd|Hs].
    + left. unfold self'. case_decide; [|done].
      by apply mark_safe_other.
    + right. destruct Hp as (_ & Hs' & _). by apply Hs'.
Qed.

(** Visiting a sentence whose count is zero marks all its cells safe. *)
Lemma conclude_zero self i s :
  knowledge self !! i = Some s → Sentence.count s = 0 →
  Store.deref (heap self) (Sentence.cells s) ⊆ safes (conclude self i).
Proof.
  intros Hi Hz. unfold conclude, conclude_in. rewrite Hi.
  unfold Sentence.known_mines. rewrite Hz.
  rewrite andb_false_r. cbn [Store.alloc].
  rewrite mark_mines_in_nothing
    by (cbn [with_heap heap]; apply deref_app_new).
  cbn [with_heap knowledge heap]. rewrite Hi.
  unfold Sentence.known_safes. rewrite Hz. cbn [Z.eqb].
  rewrite with_heap_same. rewrite deref_app_empty.
  intros x Hx. apply mark_safes_in_all.
  - intros y Hy. left. cbn [with_heap heap]. rewrite deref_app_empty.
    by apply elem_of_elements.
  - by apply elem_of_elements.
Qed.

Lemma closure_pass_last self ks s :
  knowledge self = ks ++ [s] →
  closure_pass self
  = conclude (foldl conclude self (seq 0 (length ks))) (length ks).
Proof.
  intros Hk. unfold closure_pass, closure_pass_in.
  rewrite Hk, length_app. cbn [length].
  replace (length ks + 1)%nat with (S (length ks)) by lia.
  by rewrite seq_S, foldl_app.
Qed.

End whole_call.

(** X10: [add_knowledge] never drops or replaces a sentence: in every
    state the engine can reach, each sentence is, after a further call,
    still at its position in [knowledge] with the same set object, which
    holds a subset of the cells it held; every cell it lost is in [mines]
    or [safes]; and [knowledge] is at least one sentence longer. *)
Theorem knowledge_is_append_only (self : MinesweeperAI.t) (c : cell) (n : Z) :
  reachable self →
  let self' := MinesweeperAI.add_knowledge self c n in
  (length (MinesweeperAI.knowledge self)
   < length (MinesweeperAI.knowledge self'))%nat
  ∧ ∀ i s, MinesweeperAI.knowledge self !! i = Some s →
      ∃ s', MinesweeperAI.knowledge self' !! i = Some s'
            ∧ Sentence.cells s' = Sentence.cells s
            ∧ Store.deref (MinesweeperAI.heap self') (Sentence.cells s')
              ⊆ Store.deref (MinesweeperAI.heap self) (Sentence.cells s)
            ∧ Store.deref (MinesweeperAI.heap self) (Sentence.cells s)
              ⊆ Store.deref (MinesweeperAI.heap self') (Sentence.cells s')
                ∪ MinesweeperAI.mines self' ∪ MinesweeperAI.safes self'.
Proof.
  intros Hr self'. pose proof (reachable_wf self Hr) as Hwf. split.
  - unfold self', MinesweeperAI.add_knowledge.
    assert (length (MinesweeperAI.knowledge
                      (MinesweeperAI.record_move self c))
            = length (MinesweeperAI.knowledge self)) as H1.
    { unfold MinesweeperAI.record_move, MinesweeperAI.mark_safe.
      pose proof (for_each_length
                    (fun h s => Sentence.mark_safe h s c)
                    (MinesweeperAI.knowledge self)
                    (MinesweeperAI.heap self)) as Hl.
      cbn [MinesweeperAI.knowledge MinesweeperAI.heap].
      by destruct (MinesweeperAI.for_each _ _ _). }
    destruct (observe_cell_spec self c n)
      as (_ & _ & _ & _ & _ & _ & Hk & _).
    destruct (kept_closure_pass (MinesweeperAI.observe_cell self c n))
      as (_ & Hlen & _).
    revert Hlen.
    generalize (MinesweeperAI.closure_pass
                  (MinesweeperAI.observe_cell self c n)).
    intros self2 Hlen. unfold MinesweeperAI.derive.
    destruct (MinesweeperAI.infer_all _ _) as [temp h].
    cbn [MinesweeperAI.knowledge]. rewrite length_app, Hlen, Hk, length_app.
    cbn [length]. lia.
  - intros i s Hi.
    destruct (progress_add_knowledge self c n) as (_ & _ & Hlook & _ & Hd).
    destruct (Hlook i s Hi) as (s' & Hi' & Hc & _).
    exists s'. rewrite Hc. split_and!; try done.
    all: apply Hd, wf_bound; [done|]; by eapply list_elem_of_lookup_2.
Qed.

Lemma knowledge_is_append_only_witness :
  reachable far_corner_start
  ∧ (length (MinesweeperAI.knowledge far_corner_start)
     < length (MinesweeperAI.knowledge
                 (MinesweeperAI.add_knowledge far_corner_start
                    (3, 0)%Z 0%Z)))%nat.
Proof.
  assert (reachable far_corner_start) as Hr by apply reachable_run.
  split; [exact Hr|].
  exact (proj1 (knowledge_is_append_only far_corner_start (3, 0) 0 Hr)).
Defined.

Lemma zero_count_marks_neighbours (self : MinesweeperAI.t) (c e : cell) :
  on_board (MinesweeperAI.height self) (MinesweeperAI.width self) e →
  chebyshev c e = 1 →
  e ∈ MinesweeperAI.safes (MinesweeperAI.add_knowledge self c 0)
      ∪ MinesweeperAI.mines (MinesweeperAI.add_knowledge self c 0).
Proof.
  intros Hb Hd. unfold MinesweeperAI.add_knowledge.
  destruct (derive_same_sets
              (MinesweeperAI.closure_pass
                 (MinesweeperAI.observe_cell self c 0))) as [-> ->].
  destruct (observe_cell_spec self c 0)
    as (_ & _ & _ & _ & Hs3 & Hs1 & Hk & Hh).
  set (self1 := MinesweeperAI.record_move self c) in *.
  set (self3 := MinesweeperAI.observe_cell self c 0) in *.
  pose proof (progress_closure_pass self3) as (Hm & Hs & _).
  destruct (decide (e ∈ MinesweeperAI.safes self3)) as [He|He];
    [set_solver|].
  assert (e ∈ Store.deref (MinesweeperAI.heap self3)
                (length (MinesweeperAI.heap self1))) as HN.
  { rewrite Hh, deref_app_new. apply collect_neighbours_spec.
    assert (MinesweeperAI.height self1 = MinesweeperAI.height self
            ∧ MinesweeperAI.width self1 = MinesweeperAI.width self)
      as [-> ->].
    { unfold self1, MinesweeperAI.record_move, MinesweeperAI.mark_safe.
      by destruct (MinesweeperAI.for_each _ _ _). }
    rewrite Hs1, <- Hs3. done. }
  rewrite (closure_pass_last self3 _ _ Hk).
  set (k := length (MinesweeperAI.knowledge self1)).
  set (before := foldl MinesweeperAI.conclude self3 (seq 0 k)).
  pose proof (progress_foldl_conclude elements (seq 0 k) self3)
    as (Hm1 & Hs1' & Hlook & _ & Hd1).
  fold MinesweeperAI.conclude in Hm1, Hs1', Hlook, Hd1.
  fold before in Hm1, Hs1', Hlook, Hd1.
  pose proof (progress_conclude elements before k) as (Hm2 & Hs2 & _).
  fold (MinesweeperAI.conclude before k) in Hm2, Hs2.
  destruct (Hlook k (Sentence.mk (length (MinesweeperAI.heap self1)) 0))
    as (s' & Hk' & Hc' & Hz').
  { rewrite Hk. unfold k. rewrite lookup_app_r by lia.
    by rewrite Nat.sub_diag. }
  cbn [Sentence.cells Sentence.count] in Hc', Hz'.
  destruct (Hd1 (length (MinesweeperAI.heap self1))) as [_ Hdrop].
  { rewrite Hh, length_app. cbn. lia. }
  apply Hdrop in HN. rewrite <- Hc' in HN.
  pose proof (conclude_zero before k s' Hk' (Hz' eq_refl)) as Hzero.
  set_solver.
Qed.


(** X11: after [add_knowledge cell 0], from any engine state, every cell
    of the board at Chebyshev distance 1 from [cell] is in [safes] or in
    [mines]: the single pass of step 4 always reaches the new sentence
    with its count still zero and marks what is left of it safe. *)
Theorem zero_count_settles_neighbours (self : MinesweeperAI.t)
    (c e : cell) :
  on_board (MinesweeperAI.height self) (MinesweeperAI.width self) e →
  chebyshev c e = 1 →
  e ∈ MinesweeperAI.safes (MinesweeperAI.add_knowledge self c 0)
      ∪ MinesweeperAI.mines (MinesweeperAI.add_knowledge self c 0).
Proof.
  intros Hb Hd.
  destruct (decide (e ∈ MinesweeperAI.safes
                          (MinesweeperAI.add_knowledge self c 0)))
    as [Hs|Hs]; [by apply elem_of_union_l|].
  pose proof (zero_count_marks_neighbours self c e Hb Hd) as H.
  apply elem_of_union in H as [H|H]; [done|by apply elem_of_union_r].
Qed.

Lemma zero_count_settles_neighbours_witness :
  let self := MinesweeperAI.init 8 8 in
  on_board (MinesweeperAI.height self) (MinesweeperAI.width self) (0, 2)
  ∧ chebyshev (1, 1) (0, 2) = 1
  ∧ (0, 2) ∈ MinesweeperAI.safes (MinesweeperAI.add_knowledge self (1, 1) 0)
            ∪ MinesweeperAI.mines (MinesweeperAI.add_knowledge self (1, 1) 0).
Proof.
  assert (on_board (MinesweeperAI.height (MinesweeperAI.init 8 8))
                   (MinesweeperAI.width (MinesweeperAI.init 8 8)) (0, 2))
    as Hb by (vm_compute; repeat split; discriminate).
  assert (chebyshev (1, 1) (0, 2) = 1) as Hd by reflexivity.
  split; [exact Hb|]. split; [exact Hd|].
  exact (zero_count_settles_neighbours (MinesweeperAI.init 8 8) (1, 1) (0, 2)
           Hb Hd).
Defined.

(** ** Sentences and the cells known to be safe *)

Section clean.
Import MinesweeperAI.
Implicit Types (self : MinesweeperAI.t) (c : cell) (v : cellset * Z).

Lemma narrow_mine_subseteq c v : (narrow_mine c v).1 ⊆ v.1.
Proof. unfold narrow_mine. case_decide; cbn [fst]; set_solver. Qed.

Lemma narrow_safe_subseteq c v : (narrow_safe c v).1 ⊆ v.1.
Proof. unfold narrow_safe. case_decide; cbn [fst]; set_solver. Qed.

Lemma clean_mark_mine self c : clean self → clean (mark_mine self c).
Proof.
  intros [Hwf Hv].
  destruct (mark_mine_spec self c (proj1 Hwf)) as (_ & _ & Es & _ & Ev).
  split; [by apply wf_mark_mine|]. rewrite Es, Ev.
  apply Forall_map. eapply Forall_impl; [exact Hv|]. intros v Hd. cbn.
  pose proof (narrow_mine_subseteq c v). set_solver.
Qed.

Lemma clean_mark_safe self c : clean self → clean (mark_safe self c).
Proof.
  intros [Hwf Hv].
  destruct (mark_safe_spec self c (proj1 Hwf)) as (_ & _ & Es & _ & Ev).
  split; [by apply wf_mark_safe|]. rewrite Es, Ev.
  apply Forall_map. eapply Forall_impl; [exact Hv|]. intros v Hd. cbn.
  pose proof (narrow_safe_subseteq c v). pose proof (narrow_safe_out c v).
  set_solver.
Qed.

Lemma clean_with_heap_app self h' :
  clean self → clean (with_heap self (heap self ++ h')).
Proof.
  intros [Hwf Hv]. split; [by apply wf_with_heap_app|].
  by rewrite views_with_heap_app.
Qed.

Lemma clean_mark_mines_in temp m self :
  clean self → clean (mark_mines_in self temp m).
Proof.
  unfold mark_mines_in. revert self.
  induction temp as [|c rest IH]; intros self Hc; [done|].
  cbn [foldl]. apply IH. case_decide; [by apply clean_mark_mine|done].
Qed.

Lemma clean_mark_safes_in temp m self :
  clean self → clean (mark_safes_in self temp m).
Proof.
  unfold mark_safes_in. revert self.
  induction temp as [|c rest IH]; intros self Hc; [done|].
  cbn [foldl]. apply IH. case_decide; [by apply clean_mark_safe|done].
Qed.

Lemma clean_conclude self i : clean self → clean (conclude self i).
Proof.
  intros Hc. unfold conclude, conclude_in.
  destruct (knowledge self !! i) as [s|]; [|done].
  assert (clean (with_heap self (Sentence.known_mines (heap self) s).2))
    as H1.
  { unfold Sentence.known_mines. destruct (_ && _); cbn [snd Store.alloc].
    - by rewrite with_heap_same.
    - by apply clean_with_heap_app. }
  destruct (Sentence.known_mines (heap self) s) as [m h1]. cbn [snd] in H1.
  apply (clean_mark_mines_in
           (elements (Store.deref h1 (Sentence.cells s))) m) in H1.
  revert H1. generalize (mark_mines_in (with_heap self h1)
                (elements (Store.deref h1 (Sentence.cells s))) m).
  intros self2 H2. destruct (knowledge self2 !! i) as [s'|]; [|done].
  assert (clean (with_heap self2 (Sentence.known_safes (heap self2) s').2))
    as H3.
  { unfold Sentence.known_safes. destruct (_ =? _); cbn [snd Store.alloc].
    - by rewrite with_heap_same.
    - by apply clean_with_heap_app. }
  destruct (Sentence.known_safes (heap self2) s') as [sl h3].
  by apply clean_mark_safes_in.
Qed.

Lemma clean_closure_pass self : clean self → clean (closure_pass self).
Proof.
  unfold closure_pass, closure_pass_in.
  generalize (seq 0 (length (knowledge self))). intros idx. revert self.
  induction idx as [|i idx IH]; intros self Hc; [done|].
  cbn [foldl]. by apply IH, clean_conclude.
Qed.

Lemma clean_observe_cell self c n : clean self → clean (observe_cell self c n).
Proof.
  intros [Hwf Hv]. split; [by apply wf_observe_cell|].
  destruct (observe_cell_spec self c n)
    as (_ & _ & _ & _ & Es & Es1 & _ & _).
  rewrite Es, observe_cell_views by done. apply Forall_app. split.
  - apply Forall_map. eapply Forall_impl; [exact Hv|]. intros v Hd. cbn.
    pose proof (narrow_safe_subseteq c v).
    pose proof (narrow_safe_out c v). set_solver.
  - apply Forall_singleton. cbn [fst]. intros e He Hs.
    apply collect_neighbours_spec in He as (_ & Hn & _).
    apply Hn. by rewrite Es1.
Qed.

Lemma clean_derive self : clean self → clean (derive self).
Proof.
  intros [Hwf Hv]. split; [by apply wf_derive|].
  destruct (derive_spec self Hwf) as (_ & _ & Es & _ & _ & Ev).
  rewrite Es, Ev. apply Forall_app. split; [done|].
  rewrite Forall_forall in Hv. apply Forall_forall. intros d Hd.
  unfold infer_views in Hd. apply list_elem_of_In in Hd.
  apply in_flat_map in Hd as (a & Ha & Hd).
  apply in_flat_map in Hd as (b & Hb & Hd).
  apply list_elem_of_In in Hb. specialize (Hv b Hb).
  unfold infer_view in Hd. repeat case_decide; try done.
  destruct (_ || _); [done|]. destruct (_ || _); [done|].
  destruct Hd as [<-|[]]. cbn [fst]. set_solver.
Qed.

End clean.

(** X12: in every state the engine can reach, no sentence of [knowledge]
    mentions a cell of [safes]: a cell is stripped from every sentence
    when it is marked safe, a new sentence leaves out the cells already
    safe, and a derived sentence only has cells of the larger of the two
    it comes from. *)
Theorem sentences_mention_no_safe (self : MinesweeperAI.t) :
  reachable self →
  Forall (fun v => v.1 ## MinesweeperAI.safes self)
         (MinesweeperAI.views self).
Proof.
  intros Hr. cut (clean self); [by intros [_ ?]|].
  induction Hr as [height width|self c n _ IH].
  - split; [apply wf_init|constructor].
  - by apply clean_derive, clean_closure_pass, clean_observe_cell.
Qed.

Lemma sentences_mention_no_safe_witness :
  reachable far_corner_start
  ∧ Forall (fun v => v.1 ## MinesweeperAI.safes far_corner_start)
           (MinesweeperAI.views far_corner_start).
Proof.
  assert (reachable far_corner_start) as Hr by apply reachable_run.
  split; [exact Hr|]. exact (sentences_mention_no_safe far_corner_start Hr).
Defined.

(** ** Truth of the knowledge base *)

(** X13: the subset rule of step 5 is sound: if every sentence of
    [knowledge] is true of a mine layout (its count is the number of its
    cells that are mines), so is every sentence after step 5, the appended
    ones included. *)
Theorem derive_keeps_truth (L : cellset) (self : MinesweeperAI.t) :
  wf self →
  Forall (holds L) (MinesweeperAI.views self) →
  Forall (holds L) (MinesweeperAI.views (MinesweeperAI.derive self)).
Proof.
  intros Hwf Hv. destruct (derive_spec self Hwf) as (_ & _ & _ & _ & _ & Ev).
  rewrite Ev. apply Forall_app. split; [done|].
  exact (inv_infer_views (Minesweeper.mk 0 0 L) _ Hv).
Qed.

Lemma derive_keeps_truth_witness :
  let L := Minesweeper.mines far_corner_game in
  wf far_corner_start
  ∧ Forall (holds L) (MinesweeperAI.views far_corner_start)
  ∧ Forall (holds L)
           (MinesweeperAI.views (MinesweeperAI.derive far_corner_start)).
Proof.
  assert (Forall (holds (Minesweeper.mines far_corner_game))
            (MinesweeperAI.views far_corner_start)) as Hv.
  { vm_compute. repeat constructor. }
  split; [exact far_corner_start_wf|]. split; [exact Hv|].
  exact (derive_keeps_truth _ _ far_corner_start_wf Hv).
Defined.

(** X14: over every sequence of observations consistent with a mine
    layout, every sentence of [knowledge] is true of the layout: its count
    is the number of its cells that are mines, and so lies between 0 and
    the number of its cells. *)
Theorem knowledge_stays_true (game : Minesweeper.t) (obs : list (cell * Z)) :
  consistent game obs →
  Forall (fun v => v.2 = Z.of_nat (size (v.1 ∩ Minesweeper.mines game))
                   ∧ 0 <= v.2 <= Z.of_nat (size v.1))
         (MinesweeperAI.views (run (engine_for game) obs)).
Proof.
  intros Hobs. destruct (run_inv game obs Hobs) as (_ & _ & _ & Hv).
  eapply Forall_impl; [exact Hv|]. intros v Hh.
  split; [exact Hh|]. by apply holds_fits in Hh as [? ?].
Qed.

Lemma knowledge_stays_true_witness :
  consistent top_row_game top_row_probes
  ∧ Forall (fun v => v.2 = Z.of_nat (size (v.1 ∩ Minesweeper.mines
                                                   top_row_game))
                     ∧ 0 <= v.2 <= Z.of_nat (size v.1))
           (MinesweeperAI.views (run (engine_for top_row_game)
                                     top_row_probes)).
Proof.
  split; [exact top_row_consistent|].
  exact (knowledge_stays_true top_row_game top_row_probes top_row_consistent).
Defined.

(** ** Minesweeper.nearby_mines *)

Section nearby.
Implicit Types (game : Minesweeper.t) (c e : cell).

Lemma chebyshev_one_cases c e :
  chebyshev c e = 1 →
  e ∈ [(c.1 - 1, c.2 - 1); (c.1 - 1, c.2); (c.1 - 1, c.2 + 1);
       (c.1, c.2 - 1); (c.1, c.2 + 1);
       (c.1 + 1, c.2 - 1); (c.1 + 1, c.2); (c.1 + 1, c.2 + 1)].
Proof.
  destruct c as [r k], e as [y x]. unfold chebyshev. cbn [fst snd].
  intros Hd.
  assert (y = r - 1 ∨ y = r ∨ y = r + 1) as Hy by lia.
  assert (x = k - 1 ∨ x = k ∨ x = k + 1) as Hx by lia.
  destruct Hy as [-> | [-> | ->]], Hx as [-> | [-> | ->]];
    try (exfalso; lia); set_solver.
Qed.

Lemma mined_neighbours_length game c :
  (length (mined_neighbours game c) ≤ 8)%nat.
Proof.
  pose proof (mined_neighbours_NoDup game c) as Hnd.
  apply (NoDup_submseteq _ 
           [(c.1 - 1, c.2 - 1); (c.1 - 1, c.2); (c.1 - 1, c.2 + 1);
            (c.1, c.2 - 1); (c.1, c.2 + 1);
            (c.1 + 1, c.2 - 1); (c.1 + 1, c.2); (c.1 + 1, c.2 + 1)]) in Hnd.
  - by apply submseteq_length in Hnd.
  - intros e (_ & _ & Hd)%mined_neighbours_spec.
    by apply chebyshev_one_cases.
Qed.

End nearby.

Lemma nearby_mines_zero (game : Minesweeper.t) (c : cell) :
  Minesweeper.nearby_mines game c = 0
  ↔ ∀ e, on_board (Minesweeper.height game) (Minesweeper.width game) e →
         chebyshev c e = 1 → e ∉ Minesweeper.mines game.
Proof.
  rewrite nearby_mines_length. split.
  - intros Hz e Hb Hd Hm.
    assert (e ∈ mined_neighbours game c) as He
      by (by apply mined_neighbours_spec).
    destruct (mined_neighbours game c); [by apply elem_of_nil in He|].
    cbn [length] in Hz. lia.
  - intros Hall. destruct (mined_neighbours game c) as [|e l] eqn:E; [done|].
    assert (e ∈ mined_neighbours game c) as He
      by (rewrite E; apply list_elem_of_here).
    apply mined_neighbours_spec in He as (Hb & Hm & Hd).
    by destruct (Hall e Hb Hd).
Qed.

Lemma consistent_app_l (game : Minesweeper.t) (obs obs' : list (cell * Z)) :
  consistent game (obs ++ obs') → consistent game obs.
Proof.
  intros [Hnd Hf]. split.
  - rewrite map_app in Hnd. by apply NoDup_app in Hnd as (? & _ & _).
  - by apply Forall_app in Hf as [? _].
Qed.

(** X15: [nearby_mines] returns a number between 0 and 8, and returns 0
    exactly when no cell of the board at Chebyshev distance 1 from the
    given cell is a mine; the cell itself and positions off the board are
    never counted. *)
Theorem nearby_mines_range (game : Minesweeper.t) (c : cell) :
  0 <= Minesweeper.nearby_mines game c <= 8
  ∧ (Minesweeper.nearby_mines game c = 0
     ↔ ∀ e, on_board (Minesweeper.height game) (Minesweeper.width game) e →
            chebyshev c e = 1 → e ∉ Minesweeper.mines game).
Proof.
  split; [|apply nearby_mines_zero]. rewrite nearby_mines_length.
  pose proof (mined_neighbours_length game c). lia.
Qed.

(** X16: [nearby_mines] is the number of mines among the cells of the
    board at Chebyshev distance 1 from the given cell: it is the size of
    any set that holds exactly those mines. *)
Theorem nearby_mines_counts (game : Minesweeper.t) (c : cell)
    (N : cellset) :
  (∀ e, e ∈ N
        ↔ on_board (Minesweeper.height game) (Minesweeper.width game) e
          ∧ e ∈ Minesweeper.mines game ∧ chebyshev c e = 1) →
  Minesweeper.nearby_mines game c = Z.of_nat (size N).
Proof.
  intros HN. rewrite nearby_mines_length.
  rewrite <- (size_list_to_set (C := cellset))
    by apply mined_neighbours_NoDup.
  do 2 f_equal. apply set_eq. intros e.
  by rewrite elem_of_list_to_set, mined_neighbours_spec, HN.
Qed.

Lemma nearby_mines_counts_witness :
  let N : cellset := {[ (1, 1); (1, 2) ]} in
  (∀ e, e ∈ N
        ↔ on_board (Minesweeper.height top_row_game)
                   (Minesweeper.width top_row_game) e
          ∧ e ∈ Minesweeper.mines top_row_game ∧ chebyshev (0, 1) e = 1)
  ∧ Minesweeper.nearby_mines top_row_game (0, 1) = Z.of_nat (size N).
Proof.
  assert (∀ e, e ∈ ({[ (1, 1); (1, 2) ]} : cellset)
               ↔ on_board (Minesweeper.height top_row_game)
                          (Minesweeper.width top_row_game) e
                 ∧ e ∈ Minesweeper.mines top_row_game
                 ∧ chebyshev (0, 1) e = 1) as HN.
  { intros e. unfold top_row_game, on_board, chebyshev.
    cbn [Minesweeper.height Minesweeper.width Minesweeper.mines].
    rewrite elem_of_union, !elem_of_singleton. split.
    - intros [He|He]; subst e; cbn; repeat split; try lia; auto.
    - tauto. }
  split; [exact HN|].
  exact (nearby_mines_counts top_row_game (0, 1) _ HN).
Defined.

(** ** add_knowledge with count 0, in a consistent run *)

(** X17: when a probe of [cell] that the board answers with 0 follows a
    sequence of observations consistent with the board's mine layout,
    every cell of the board at Chebyshev distance 1 from [cell] is in
    [safes] once [add_knowledge] returns. *)
Theorem zero_count_neighbours_safe (game : Minesweeper.t)
    (obs : list (cell * Z)) (c e : cell) :
  consistent game (obs ++ [(c, 0)]) →
  on_board (Minesweeper.height game) (Minesweeper.width game) e →
  chebyshev c e = 1 →
  e ∈ MinesweeperAI.safes (run (engine_for game) (obs ++ [(c, 0)])).
Proof.
  intros Hobs Hb Hd.
  destruct (run_inv game _ Hobs) as (_ & _ & [Hm _] & _).
  destruct (run_inv game obs (consistent_app_l _ _ _ Hobs)) as ([Hh Hw] & _).
  assert (Minesweeper.nearby_mines game c = 0) as Hz.
  { destruct Hobs as [_ Hf]. apply Forall_app in Hf as [_ Hf].
    apply Forall_singleton in Hf as [_ Hf]. by cbn in Hf. }
  rewrite run_snoc in Hm |- *. cbn [fst snd] in Hm |- *.
  pose proof (zero_count_marks_neighbours (run (engine_for game) obs) c e)
    as Hz'.
  rewrite Hh, Hw in Hz'. specialize (Hz' Hb Hd).
  apply elem_of_union in Hz' as [?|Hmine]; [done|].
  apply Hm in Hmine.
  by destruct (proj1 (nearby_mines_zero game c) Hz e Hb Hd).
Qed.

Lemma zero_count_neighbours_safe_witness :
  let game := Minesweeper.mk 1 4 {[ (0, 0) ]} in
  let obs := [((0, 1), 1)] in
  consistent game (obs ++ [((0, 3), 0)])
  ∧ on_board (Minesweeper.height game) (Minesweeper.width game) (0, 2)
  ∧ chebyshev (0, 3) (0, 2) = 1
  ∧ (0, 2) ∈ MinesweeperAI.safes
               (run (engine_for game) (obs ++ [((0, 3), 0)])).
Proof.
  assert (consistent (Minesweeper.mk 1 4 {[ (0, 0) ]})
            ([((0, 1), 1)] ++ [((0, 3), 0)])) as Hobs.
  { split.
    - apply (bool_decide_unpack _). vm_compute. exact I.
    - repeat apply Forall_cons_2; try apply Forall_nil_2.
      all: split; [apply (bool_decide_unpack _); vm_compute; exact I
                  |vm_compute; reflexivity]. }
  assert (on_board (Minesweeper.height (Minesweeper.mk 1 4 {[ (0, 0) ]}))
                   (Minesweeper.width (Minesweeper.mk 1 4 {[ (0, 0) ]}))
                   (0, 2)) as Hb
    by (vm_compute; repeat split; discriminate).
  assert (chebyshev (0, 3) (0, 2) = 1) as Hd by reflexivity.
  split; [exact Hobs|]. split; [exact Hb|]. split; [exact Hd|].
  exact (zero_count_neighbours_safe _ _ _ _ Hobs Hb Hd).
Defined.

(** ** make_safe_move *)

Section safe_move.
Import MinesweeperAI.
Implicit Types (self : MinesweeperAI.t) (c : cell).

Lemma scan_safes_spec self cells :
  scan_safes self cells = head (filter (fun c => c ∉ moves_made self) cells).
Proof.
  induction cells as [|c rest IH]; [done|].
  cbn [scan_safes]. rewrite filter_cons. by case_decide.
Qed.

Lemma make_safe_move_spec order self :
  (∀ (X : cellset) x, x ∈ order X ↔ x ∈ X) →
  let result := (make_safe_move_in order self).1 in
  (∀ c, result = Some c → c ∈ safes self ∧ (c ∉ moves_made self))
  ∧ (result = None ↔ safes self ⊆ moves_made self).
Proof.
  intros Ho result. unfold result, make_safe_move_in. cbn [fst].
  rewrite scan_safes_spec. split.
  - intros c [Hn Hc]%head_filter_Some. by apply Ho in Hc.
  - rewrite head_filter_None. split.
    + intros Hall c Hc. destruct (decide (c ∈ moves_made self)); [done|].
      destruct (Hall c); [by apply Ho|done].
    + intros Hsub c Hc Hn. apply Hn, Hsub. by apply Ho.
Qed.

Lemma reverse_elements_order (X : cellset) x :
  x ∈ reverse (elements X) ↔ x ∈ X.
Proof. by rewrite elem_of_reverse, elem_of_elements. Qed.

Lemma run_moves_made self obs c :
  c ∈ map fst obs → c ∈ moves_made (run self obs).
Proof.
  induction obs as [|o obs IH] using rev_ind;
    [by intros ?%elem_of_nil|].
  rewrite map_app, elem_of_app, run_snoc. cbn [map].
  destruct (add_knowledge_board (run self obs) o.1 o.2) as (_ & _ & ->).
  intros [Hc|Hc%list_elem_of_singleton]; [|set_solver].
  apply IH in Hc. set_solver.
Qed.

End safe_move.

(** X18: whatever the order in which Python iterates over [safes],
    [make_safe_move] returns only a cell of [safes] that is not in
    [moves_made], returns [None] exactly when every cell of [safes] is in
    [moves_made], and leaves the engine as it was. *)
Theorem make_safe_move_contract (order : cellset → list cell)
    (self : MinesweeperAI.t) :
  (∀ (X : cellset) x, x ∈ order X ↔ x ∈ X) →
  let result := (MinesweeperAI.make_safe_move_in order self).1 in
  (∀ c, result = Some c →
        c ∈ MinesweeperAI.safes self
        ∧ (c ∉ MinesweeperAI.moves_made self))
  ∧ (result = None
     ↔ MinesweeperAI.safes self ⊆ MinesweeperAI.moves_made self)
  ∧ (MinesweeperAI.make_safe_move_in order self).2 = self.
Proof.
  intros Ho result. destruct (make_safe_move_spec order self Ho) as [H1 H2].
  split_and!; done.
Qed.

Lemma make_safe_move_contract_witness :
  (∀ (X : cellset) x, x ∈ reverse (elements X) ↔ x ∈ X)
  ∧ (MinesweeperAI.make_safe_move_in (fun X => reverse (elements X))
       far_corner_start).2 = far_corner_start.
Proof.
  split; [exact reverse_elements_order|].
  exact (proj2 (proj2 (make_safe_move_contract
                         (fun X => reverse (elements X)) far_corner_start
                         reverse_elements_order))).
Defined.

(** X19: over every sequence of observations consistent with a mine
    layout, the cell [make_safe_move] returns, if any, is not a mine of the
    layout and has not been probed, whatever the order in which [safes] is
    iterated. *)
Theorem safe_move_is_no_mine (game : Minesweeper.t) (obs : list (cell * Z))
    (order : cellset → list cell) (c : cell) :
  consistent game obs →
  (∀ (X : cellset) x, x ∈ order X ↔ x ∈ X) →
  (MinesweeperAI.make_safe_move_in order (run (engine_for game) obs)).1
  = Some c →
  (c ∉ Minesweeper.mines game) ∧ (c ∉ map fst obs).
Proof.
  intros Hobs Ho Hr.
  destruct (run_inv game obs Hobs) as (_ & _ & [_ Hs] & _).
  destruct (make_safe_move_spec order (run (engine_for game) obs) Ho)
    as [H1 _].
  destruct (H1 c Hr) as [Hc Hn]. split.
  - intros Hm. by apply (Hs c).
  - intros Hp. apply Hn.
    by apply (run_moves_made (engine_for game) obs c).
Qed.

Lemma strip_consistent : consistent strip_game strip_probes.
Proof.
  split.
  - apply (bool_decide_unpack _). vm_compute. exact I.
  - repeat apply Forall_cons_2; try apply Forall_nil_2.
    all: split; [apply (bool_decide_unpack _); vm_compute; exact I
                |vm_compute; reflexivity].
Defined.

Lemma safe_move_is_no_mine_witness :
  consistent strip_game strip_probes
  ∧ (∀ (X : cellset) x, x ∈ elements X ↔ x ∈ X)
  ∧ (MinesweeperAI.make_safe_move_in elements
       (run (engine_for strip_game) strip_probes)).1 = Some (0, 2)
  ∧ ((0, 2) ∉ Minesweeper.mines strip_game)
  ∧ ((0, 2) ∉ map fst strip_probes).
Proof.
  assert (∀ (X : cellset) x, x ∈ elements X ↔ x ∈ X) as Ho
    by (intros X x; apply elem_of_elements).
  assert ((MinesweeperAI.make_safe_move_in elements
             (run (engine_for strip_game) strip_probes)).1 = Some (0, 2))
    as Hr by (vm_compute; reflexivity).
  split; [exact strip_consistent|]. split; [exact Ho|].
  split; [exact Hr|].
  exact (safe_move_is_no_mine strip_game strip_probes elements (0, 2)
           strip_consistent Ho Hr).
Defined.

(** ** add_knowledge when every unsafe neighbour is a mine *)

Section all_mines.
Import MinesweeperAI.
Implicit Types (self : MinesweeperAI.t) (c : cell).

Lemma mark_mine_spec_sets self c :
  mines (mark_mine self c) = {[c]} ∪ mines self
  ∧ safes (mark_mine self c) = safes self.
Proof. unfold mark_mine. by destruct (for_each _ _ _). Qed.

Lemma mark_mines_in_all temp m self c :
  (∀ x, x ∈ temp → x ∈ Store.deref (heap self) m ∨ x ∈ mines self) →
  c ∈ temp → c ∈ mines (mark_mines_in self temp m).
Proof.
  unfold mark_mines_in. revert self.
  induction temp as [|c0 rest IH]; intros self Hall Hc;
    [by apply elem_of_nil in Hc|].
  cbn [foldl].
  set (self' := if decide (c0 ∈ Store.deref (heap self) m)
                then mark_mine self c0 else self).
  assert (progress self self') as Hp.
  { unfold self'. case_decide; [apply progress_mark_mine|apply progress_refl]. }
  assert (c0 ∈ mines self') as Hc0.
  { unfold self'. case_decide.
    - destruct (mark_mine_spec_sets self c0) as [-> _]. set_solver.
    - destruct (Hall c0 (list_elem_of_here _ _)); done. }
  apply elem_of_cons in Hc as [->|Hc].
  - destruct (progress_mark_mines_in rest m self') as (Hm & _).
    by apply Hm.
  - apply IH; [|done]. intros x Hx.
    destruct (decide (x = c0)) as [->|Hne]; [by right|].
    destruct (Hall x (list_elem_of_further _ _ _ Hx)) as [Hd|Hm].
    + left. unfold self'. case_decide; [|done].
      by apply mark_mine_other.
    + right. destruct Hp as (Hm' & _). by apply Hm'.
Qed.

(** Visiting a sentence whose count is the number of its cells, and not
    zero, marks all its cells as mines. *)
Lemma conclude_all_mines self i s :
  knowledge self !! i = Some s →
  Sentence.count s
  = Z.of_nat (size (Store.deref (heap self) (Sentence.cells s))) →
  Sentence.count s > 0 →
  Store.deref (heap self) (Sentence.cells s) ⊆ mines (conclude self i).
Proof.
  intros Hi Heq Hpos. unfold conclude, conclude_in. rewrite Hi.
  unfold Sentence.known_mines.
  rewrite (proj2 (Z.eqb_eq _ _) (eq_sym Heq)).
  rewrite (proj2 (Z.gtb_gt _ _) Hpos). cbn [andb].
  rewrite with_heap_same.
  set (self2 := mark_mines_in self _ _).
  assert (Store.deref (heap self) (Sentence.cells s) ⊆ mines self2) as H2.
  { intros x Hx. apply mark_mines_in_all.
    - intros y Hy. left. by apply elem_of_elements.
    - by apply elem_of_elements. }
  destruct (knowledge self2 !! i) as [s'|]; [|done].
  pose proof (progress_known_safes self2 s') as (Hm3 & _).
  destruct (Sentence.known_safes (heap self2) s') as [sl h3].
  cbn [snd] in Hm3.
  pose proof (progress_mark_safes_in
                (elements (Store.deref (heap self) (Sentence.cells s))) sl
                (with_heap self2 h3)) as (Hm4 & _).
  set_solver.
Qed.

Lemma inv_foldl_conclude L idx self :
  inv L self → inv L (foldl conclude self idx).
Proof.
  revert self. induction idx as [|i idx IH]; intros self Hinv; [done|].
  cbn [foldl]. by apply IH, inv_conclude.
Qed.

End all_mines.

(** X20: when a probe of [cell] follows a sequence of observations
    consistent with the board's mine layout, and every cell of the board
    at Chebyshev distance 1 from [cell] that is not yet in [safes] is a
    mine, then all those cells are in [mines] once [add_knowledge]
    returns. *)
Theorem all_mines_are_marked (game : Minesweeper.t) (obs : list (cell * Z))
    (c : cell) (n : Z) :
  consistent game (obs ++ [(c, n)]) →
  let self := run (engine_for game) obs in
  let unsafe e :=
    on_board (Minesweeper.height game) (Minesweeper.width game) e
    ∧ chebyshev c e = 1 ∧ (e ∉ MinesweeperAI.safes self) ∧ e ≠ c in
  (∀ e, unsafe e → e ∈ Minesweeper.mines game) →
  ∀ e, unsafe e →
       e ∈ MinesweeperAI.mines (run (engine_for game) (obs ++ [(c, n)])).
Proof.
  intros Hobs self unsafe Hall e He.
  destruct (run_inv game obs (consistent_app_l _ _ _ Hobs))
    as ([Hh Hw] & Hinv).
  fold self in Hh, Hw, Hinv.
  assert ((c ∉ Minesweeper.mines game)
          ∧ n = Minesweeper.nearby_mines game c) as [Hc ->].
  { destruct Hobs as [_ Hf]. apply Forall_app in Hf as [_ Hf].
    apply Forall_inv in Hf. exact Hf. }
  rewrite run_snoc. cbn [fst snd]. fold self.
  set (n := Minesweeper.nearby_mines game c).
  unfold MinesweeperAI.add_knowledge.
  rewrite (proj1 (derive_same_sets _)).
  pose proof (inv_observe_cell game self c (conj Hh Hw) Hc Hinv) as Hinv3.
  fold n in Hinv3.
  destruct (observe_cell_spec self c n)
    as (_ & _ & _ & _ & Hs3 & Hs1 & Hk & Hheap).
  set (self1 := MinesweeperAI.record_move self c) in *.
  set (self3 := MinesweeperAI.observe_cell self c n) in *.
  set (k0 := length (MinesweeperAI.heap self1)) in *.
  assert (∀ x, x ∈ Store.deref (MinesweeperAI.heap self3) k0 ↔ unsafe x)
    as HN.
  { intros x. rewrite Hheap. unfold k0. rewrite deref_app_new.
    rewrite collect_neighbours_spec.
    assert (MinesweeperAI.height self1 = MinesweeperAI.height self
            ∧ MinesweeperAI.width self1 = MinesweeperAI.width self)
      as [-> ->].
    { unfold self1, MinesweeperAI.record_move, MinesweeperAI.mark_safe.
      by destruct (MinesweeperAI.for_each _ _ _). }
    rewrite Hs1, Hh, Hw. unfold unsafe.
    rewrite not_elem_of_union, not_elem_of_singleton. tauto. }
  rewrite (closure_pass_last self3 _ _ Hk).
  set (k := length (MinesweeperAI.knowledge self1)).
  set (before := foldl MinesweeperAI.conclude self3 (seq 0 k)).
  pose proof (inv_foldl_conclude _ (seq 0 k) self3 Hinv3) as Hinvb.
  fold before in Hinvb.
  pose proof (progress_foldl_conclude elements (seq 0 k) self3)
    as (Hm1 & _ & Hlook & _ & Hd1).
  fold MinesweeperAI.conclude in Hm1, Hlook, Hd1.
  fold before in Hm1, Hlook, Hd1.
  pose proof (progress_conclude elements before k) as (Hm2 & _).
  fold (MinesweeperAI.conclude before k) in Hm2.
  destruct (Hlook k (Sentence.mk k0 n)) as (s' & Hk' & Hc' & _).
  { rewrite Hk. unfold k. rewrite lookup_app_r by lia.
    by rewrite Nat.sub_diag. }
  cbn [Sentence.cells] in Hc'.
  destruct (Hd1 k0) as [Hsub Hdrop].
  { rewrite Hheap, length_app. cbn. unfold k0. lia. }
  apply HN in He as HeN. apply Hdrop in HeN.
  destruct Hinvb as (Hwfb & [Hmb Hsb] & Hvb).
  apply elem_of_union in HeN as [HeN|HeS];
    [|destruct (Hsb e HeS); by apply Hall].
  apply elem_of_union in HeN as [HeN|HeM]; [|by apply Hm2].
  assert (holds (Minesweeper.mines game)
                (Sentence.view (MinesweeperAI.heap before) s')) as Hh'.
  { rewrite Forall_forall in Hvb. apply Hvb. unfold MinesweeperAI.views.
    apply list_elem_of_In, in_map, list_elem_of_In.
    by eapply list_elem_of_lookup_2. }
  unfold holds, Sentence.view in Hh'. cbn [fst snd] in Hh'.
  rewrite Hc' in Hh'.
  assert (Store.deref (MinesweeperAI.heap before) k0
          ∩ Minesweeper.mines game
          = Store.deref (MinesweeperAI.heap before) k0) as Hall'.
  { apply set_eq. intros x. rewrite elem_of_intersection.
    split; [tauto|]. intros Hx. split; [done|].
    apply Hall, HN, Hsub, Hx. }
  rewrite Hall' in Hh'.
  apply (conclude_all_mines before k s' Hk').
  - by rewrite Hc'.
  - rewrite Hh'.
    assert (size (Store.deref (MinesweeperAI.heap before) k0) ≠ 0%nat)
      by (intros Hz%size_empty_inv; set_solver).
    lia.
  - by rewrite Hc'.
Qed.

Lemma all_mines_are_marked_witness :
  let game := top_row_game in
  let obs := [((0, 0), 1); ((0, 1), 2)] in
  let self := run (engine_for game) obs in
  let unsafe e :=
    on_board (Minesweeper.height game) (Minesweeper.width game) e
    ∧ chebyshev (0, 2) e = 1 ∧ (e ∉ MinesweeperAI.safes self)
    ∧ e ≠ (0, 2) in
  consistent game (obs ++ [((0, 2), 2)])
  ∧ (∀ e, unsafe e → e ∈ Minesweeper.mines game)
  ∧ unsafe (1, 2)
  ∧ (1, 2) ∈ MinesweeperAI.mines
               (run (engine_for game) (obs ++ [((0, 2), 2)])).
Proof.
  cbv zeta.
  assert (∀ e,
    on_board (Minesweeper.height top_row_game)
             (Minesweeper.width top_row_game) e
    ∧ chebyshev (0, 2) e = 1
    ∧ (e ∉ MinesweeperAI.safes
             (run (engine_for top_row_game) [((0, 0), 1); ((0, 1), 2)]))
    ∧ e ≠ (0, 2)
    → e ∈ Minesweeper.mines top_row_game) as Hall.
  { intros e (Hb & Hd & Hs & Hne).
    pose proof (chebyshev_one_cases _ _ Hd) as Hcases. cbn [fst snd] in Hcases.
    unfold on_board in Hb. cbn in Hb.
    repeat (apply elem_of_cons in Hcases as [->|Hcases]);
      try (by apply elem_of_nil in Hcases);
      cbn [fst snd] in Hb; try lia.
    - exfalso. apply Hs. apply (bool_decide_unpack _). vm_compute. exact I.
    - apply (bool_decide_unpack _). vm_compute. exact I.
    - apply (bool_decide_unpack _). vm_compute. exact I. }
  assert (on_board (Minesweeper.height top_row_game)
                   (Minesweeper.width top_row_game) (1, 2)
          ∧ chebyshev (0, 2) (1, 2) = 1
          ∧ ((1, 2) ∉ MinesweeperAI.safes
                        (run (engine_for top_row_game)
                             [((0, 0), 1); ((0, 1), 2)]))
          ∧ (1, 2) ≠ (0, 2)) as Hu.
  { split_and!.
    - vm_compute. repeat split; discriminate.
    - reflexivity.
    - apply (bool_decide_unpack _). vm_compute. exact I.
    - discriminate. }
  split; [exact top_row_consistent|]. split; [exact Hall|].
  split; [exact Hu|].
  exact (all_mines_are_marked top_row_game [((0, 0), 1); ((0, 1), 2)]
           (0, 2) 2 top_row_consistent Hall (1, 2) Hu).
Defined.
